(** * Sliding-window-log rate limiter (task02.py)

    A shallow embedding of the class [SlidingWindowRateLimiter] and the
    properties of its four methods.

    Timestamps are the values of [time.perf_counter()], Python floats. A
    finite float is a rational number, so timestamps are values of [Q] and
    are compared exactly, as floats are. The subtraction and the addition
    of the source are those of binary64: the exact result rounded to the
    nearest float, ties to even ([fsub], [fadd], through [b64]). The window
    size is taken as the float Python subtracts (an [int] window is
    converted first, exactly when it is below 2^53). Results of magnitude
    2^1024 or more, where Python gives [inf] or raises [OverflowError], are
    outside the model. The clock is an explicit sequence of readings: the
    [i]-th call to [time.perf_counter()] made through the limiter returns
    [clock i]. The dictionary [request_history] is a [gmap] from user ids to
    logs; a deque is a list with its left end at the head. A method is a
    state transformer that either returns a value or raises. *)

From Stdlib Require Import QArith Qround Qpower Lqa ZArith List Sorted.
From stdpp Require Import base option strings gmap list.

Local Open Scope Q_scope.

(** ** Data model *)

(** The fields set by [__init__] (task02.py, 22-29). *)
Record SlidingWindowRateLimiter := mkLimiter {
  window_size : Q;
  max_requests : Z;
  request_history : gmap string (list Q)
}.

(** The limiter object together with the number of clock readings made. *)
Record World := mkWorld {
  self : SlidingWindowRateLimiter;
  ticks : nat
}.

(** The exceptions the methods can raise. *)
Inductive Exn :=
| KeyError (key : string)
| IndexError.

Inductive Outcome (A : Type) :=
| Returned (a : A)
| Raised (e : Exn).
Arguments Returned {A} a.
Arguments Raised {A} e.

(** ** Binary64 arithmetic *)

(** The nearest integer, ties to even. *)
Definition rne (q : Q) : Z :=
  let f := Qfloor q in
  match Qcompare (q - inject_Z f) (1 # 2) with
  | Lt => f
  | Gt => (f + 1)%Z
  | Eq => if Z.even f then f else (f + 1)%Z
  end.

Definition pow2 (e : Z) : Q := 2 ^ e.

(** For [x > 0], the [k] with [2^k <= x < 2^(k+1)]. *)
Definition ilog2 (x : Q) : Z :=
  let k := (Z.log2 (Qnum x) - Z.log2 (Zpos (Qden x)))%Z in
  if Qle_bool (pow2 k) x then k else (k - 1)%Z.

(** The exponent of the last place of the floats around [x > 0]: 53
    significant bits, and never below the subnormal spacing [2^-1074]. *)
Definition ulp_exponent (x : Q) : Z := Z.max (ilog2 x - 52) (-1074).

Definition round_positive (x : Q) : Q :=
  let e := ulp_exponent x in
  Qred (inject_Z (rne (x / pow2 e)) * pow2 e).

(** The float nearest to [x], ties to even. *)
Definition b64 (x : Q) : Q :=
  match Qcompare x 0 with
  | Eq => 0
  | Gt => round_positive x
  | Lt => - round_positive (- x)
  end.

(** Float subtraction and addition of two floats. *)
Definition fsub (a b : Q) : Q := b64 (a - b).
Definition fadd (a b : Q) : Q := b64 (a + b).

(** [q] is a float. *)
Definition is_float (q : Q) : Prop := b64 q == q.

(** ** The method monad: state passing with exceptions *)

Definition M (A : Type) : Type := World -> Outcome A * World.

Definition ret {A} (a : A) : M A := fun w => (Returned a, w).

Definition raise {A} (e : Exn) : M A := fun w => (Raised e, w).

Definition bind {A B} (m : M A) (k : A -> M B) : M B :=
  fun w =>
    match m w with
    | (Returned a, w') => k a w'
    | (Raised e, w') => (Raised e, w')
    end.

Notation "x <- m ;; k" := (bind m (fun x => k))
  (at level 100, m at level 99, right associativity).
Notation "m ;;; k" := (bind m (fun _ => k))
  (at level 100, right associativity).

Definition get_self : M SlidingWindowRateLimiter :=
  fun w => (Returned (self w), w).

Definition set_history (h : gmap string (list Q)) : M unit :=
  fun w =>
    (Returned tt,
     mkWorld (mkLimiter (window_size (self w)) (max_requests (self w)) h)
             (ticks w)).

(** [user_id in self.request_history] *)
Definition contains (user_id : string) : M bool :=
  s <- get_self ;;
  ret (match request_history s !! user_id with
       | Some _ => true
       | None => false
       end).

(** [self.request_history[user_id]] as an expression: raises [KeyError] when
    the key is absent. *)
Definition getitem (user_id : string) : M (list Q) :=
  s <- get_self ;;
  match request_history s !! user_id with
  | Some l => ret l
  | None => raise (KeyError user_id)
  end.

(** [self.request_history[user_id] = l] *)
Definition setitem (user_id : string) (l : list Q) : M unit :=
  s <- get_self ;;
  set_history (<[user_id := l]> (request_history s)).

(** [del self.request_history[user_id]] *)
Definition delitem (user_id : string) : M unit :=
  s <- get_self ;;
  match request_history s !! user_id with
  | Some _ => set_history (delete user_id (request_history s))
  | None => raise (KeyError user_id)
  end.

Section Limiter.

(** [clock i] is what the [i]-th call to [time.perf_counter()] returns. *)
Variable clock : nat -> Q.

Definition perf_counter : M Q :=
  fun w => (Returned (clock (ticks w)), mkWorld (self w) (S (ticks w))).

(** ** The methods *)

(** [__init__] (task02.py, 13-29); an omitted argument is [None] and takes
    its default. *)
Definition __init__ (window_size : option Q) (max_requests : option Z)
  : Outcome SlidingWindowRateLimiter :=
  Returned (mkLimiter (default 10 window_size) (default 1%Z max_requests) ∅).

(** The loop of [_cleanup_window] (task02.py, 46-48): pop from the left
    while the deque is non-empty and its head is at most [bound], where
    [bound] is the float [current_time - self.window_size]. *)
Fixpoint popleft_expired (bound : Q) (user_timestamps : list Q) : list Q :=
  match user_timestamps with
  | [] => []
  | t :: rest =>
      if Qle_bool t bound then popleft_expired bound rest
      else user_timestamps
  end.

(** [_cleanup_window] (task02.py, 32-52). The deque is mutated in place, so
    the dictionary sees the shortened deque before the emptiness test. *)
Definition _cleanup_window (user_id : string) (current_time : Q) : M unit :=
  present <- contains user_id ;;
  if negb present then ret tt
  else
    user_timestamps <- getitem user_id ;;
    s <- get_self ;;
    let user_timestamps' :=
      popleft_expired (fsub current_time (window_size s)) user_timestamps in
    setitem user_id user_timestamps' ;;;
    match user_timestamps' with
    | [] => delitem user_id
    | _ :: _ => ret tt
    end.

(** [can_send_message] (task02.py, 55-73). *)
Definition can_send_message (user_id : string) : M bool :=
  current_time <- perf_counter ;;
  _cleanup_window user_id current_time ;;;
  present <- contains user_id ;;
  if negb present then ret true
  else
    l <- getitem user_id ;;
    match l with
    | [] => ret true
    | _ :: _ =>
        l' <- getitem user_id ;;
        s <- get_self ;;
        ret (Z.of_nat (length l') <? max_requests s)%Z
    end.

(** [record_message] (task02.py, 76-94). *)
Definition record_message (user_id : string) : M bool :=
  allowed <- can_send_message user_id ;;
  if negb allowed then ret false
  else
    current_time <- perf_counter ;;
    present <- contains user_id ;;
    (if negb present then setitem user_id [] else ret tt) ;;;
    l <- getitem user_id ;;
    setitem user_id (l ++ [current_time]) ;;;
    ret true.

(** Python's [max(0.0, x)]: the second argument only when it is strictly
    greater than the first. *)
Definition max0 (x : Q) : Q := if Qle_bool x 0 then 0 else x.

(** [time_until_next_allowed] (task02.py, 97-129). *)
Definition time_until_next_allowed (user_id : string) : M Q :=
  present <- contains user_id ;;
  if negb present then ret 0
  else
    current_time <- perf_counter ;;
    _cleanup_window user_id current_time ;;;
    l <- getitem user_id ;;
    match l with
    | [] => ret 0
    | _ :: _ =>
        l' <- getitem user_id ;;
        s <- get_self ;;
        if (Z.of_nat (length l') <? max_requests s)%Z then ret 0
        else
          l'' <- getitem user_id ;;
          match l'' with
          | [] => raise IndexError
          | oldest_timestamp :: _ =>
              s' <- get_self ;;
              let time_to_allow := fadd oldest_timestamp (window_size s') in
              let time_to_wait := fsub time_to_allow current_time in
              ret (max0 time_to_wait)
          end
    end.

End Limiter.

(** ** Calls and reachable states *)

Inductive Call :=
| CanSendMessage (user_id : string)
| RecordMessage (user_id : string)
| TimeUntilNextAllowed (user_id : string).

(** The world a call leaves behind, whether it returned or raised. *)
Definition after (clock : nat -> Q) (c : Call) (w : World) : World :=
  match c with
  | CanSendMessage k => snd (can_send_message clock k w)
  | RecordMessage k => snd (record_message clock k w)
  | TimeUntilNextAllowed k => snd (time_until_next_allowed clock k w)
  end.

(** The worlds a limiter built by [__init__ ws mr] can be in, under the
    readings [clock], after any sequence of method calls. *)
Inductive reachable (clock : nat -> Q) (ws : option Q) (mr : option Z)
  : World -> Prop :=
| reachable_init s :
    __init__ ws mr = Returned s -> reachable clock ws mr (mkWorld s 0)
| reachable_call c w :
    reachable clock ws mr w -> reachable clock ws mr (after clock c w).

(** The clock never goes back. *)
Definition monotone (clock : nat -> Q) : Prop :=
  forall i j : nat, (i <= j)%nat -> clock i <= clock j.

(** The log of a key, the empty log for an absent key. *)
Definition log_of (s : SlidingWindowRateLimiter) (user_id : string) : list Q :=
  default [] (request_history s !! user_id).

(** ** What each method computes: pure counterparts *)

Definition with_history (s : SlidingWindowRateLimiter)
  (h : gmap string (list Q)) : SlidingWindowRateLimiter :=
  mkLimiter (window_size s) (max_requests s) h.

(** The dictionary [_cleanup_window] leaves. *)
Definition cleaned (user_id : string) (now : Q) (s : SlidingWindowRateLimiter)
  : gmap string (list Q) :=
  match request_history s !! user_id with
  | None => request_history s
  | Some l =>
      match popleft_expired (fsub now (window_size s)) l with
      | [] => delete user_id (request_history s)
      | t :: l' => <[user_id := t :: l']> (request_history s)
      end
  end.

(** The log that survives eviction at [now]. *)
Definition active (user_id : string) (now : Q) (s : SlidingWindowRateLimiter)
  : list Q :=
  popleft_expired (fsub now (window_size s)) (log_of s user_id).

(** The admission decision taken at [now]. *)
Definition admissible (user_id : string) (now : Q) (s : SlidingWindowRateLimiter)
  : bool :=
  match active user_id now s with
  | [] => true
  | t :: l => (Z.of_nat (length (t :: l)) <? max_requests s)%Z
  end.

(** The dictionary a call leaves, and the number of clock readings it
    makes. *)
Definition history_after (clock : nat -> Q) (c : Call) (w : World)
  : gmap string (list Q) :=
  let s := self w in
  let t1 := clock (ticks w) in
  let t2 := clock (S (ticks w)) in
  match c with
  | CanSendMessage k => cleaned k t1 s
  | RecordMessage k =>
      if admissible k t1 s then <[k := active k t1 s ++ [t2]]> (cleaned k t1 s)
      else cleaned k t1 s
  | TimeUntilNextAllowed k => cleaned k t1 s
  end.

Definition reads (clock : nat -> Q) (c : Call) (w : World) : nat :=
  match c with
  | CanSendMessage _ => 1
  | RecordMessage k => if admissible k (clock (ticks w)) (self w) then 2 else 1
  | TimeUntilNextAllowed k =>
      match request_history (self w) !! k with
      | Some _ => 1
      | None => 0
      end
  end.

(** ** Scenarios *)

(** Readings 0, 1, 2, ... seconds. *)
Definition tick_clock (i : nat) : Q := inject_Z (Z.of_nat i).

(** Two readings at 0 s, then every reading at 10 s. *)
Definition boundary_clock (i : nat) : Q := if (i <? 2)%nat then 0 else 10.

(** A new limiter with a window of 10 s and one request per window. *)
Definition fresh_world : World := mkWorld (mkLimiter 10 1 ∅) 0.

(** The float [0.1]. *)
Definition tenth : Q := 3602879701896397 # 36028797018963968.

(** Two readings at the float [5.000000001], then every reading at the
    float [5.100000001]. *)
Definition rounding_clock (i : nat) : Q :=
  if (i <? 2)%nat then 1407374883834755 # 281474976710656
  else 2871044763011641 # 562949953421312.

(** Two readings at the float [5.000000033], then every reading at the
    float [15.000000033]. *)
Definition late_clock (i : nat) : Q :=
  if (i <? 2)%nat then 5629499571367817 # 1125899906842624
  else 2111062329974257 # 140737488355328.

(** A new limiter with a window of 0.1 s and one request per window. *)
Definition short_window_world : World := mkWorld (mkLimiter tenth 1 ∅) 0.

(** ** Observing a run *)

(** The key a call is about. *)
Definition call_key (c : Call) : string :=
  match c with
  | CanSendMessage k => k
  | RecordMessage k => k
  | TimeUntilNextAllowed k => k
  end.

(** The timestamp a call appends to the log of [user_id]: the last entry of
    that log after a [record_message user_id] that returned [True], nothing
    for any other call. *)
Definition appended (clock : nat -> Q) (c : Call) (w : World)
  (user_id : string) : list Q :=
  match c with
  | RecordMessage k =>
      if decide (k = user_id) then
        match record_message clock k w with
        | (Returned true, w') =>
            match last (log_of (self w') user_id) with
            | Some t => [t]
            | None => []
            end
        | _ => []
        end
      else []
  | _ => []
  end.

(** A reachable world together with, for every key, all the timestamps
    ever appended to its log, oldest first. *)
Inductive traced (clock : nat -> Q) (ws : option Q) (mr : option Z)
  : World -> (string -> list Q) -> Prop :=
| traced_init s :
    __init__ ws mr = Returned s ->
    traced clock ws mr (mkWorld s 0) (fun _ => [])
| traced_call c w adm :
    traced clock ws mr w adm ->
    traced clock ws mr (after clock c w)
           (fun k => adm k ++ appended clock c w k).

(** Whether [t] lies in the window that ends at [x], as the code measures
    it: above the float [x - ws] and at most [x]. *)
Definition in_window (ws x t : Q) : bool :=
  negb (Qle_bool t (fsub x ws)) && Qle_bool t x.

(** How many timestamps of [l] lie in that window. *)
Definition count_in_window (ws x : Q) (l : list Q) : nat :=
  length (List.filter (in_window ws x) l).

(** The same limiter with another request limit. *)
Definition with_max_requests (s : SlidingWindowRateLimiter) (m : Z)
  : SlidingWindowRateLimiter :=
  mkLimiter (window_size s) m (request_history s).

(** [n] calls of [record_message user_id] in a row; the results, first
    call first, and the world left. *)
Fixpoint record_messages (clock : nat -> Q) (user_id : string) (n : nat)
  (w : World) : list (Outcome bool) * World :=
  match n with
  | O => ([], w)
  | S n' =>
      let r := record_message clock user_id w in
      let rs := record_messages clock user_id n' (snd r) in
      (fst r :: fst rs, snd rs)
  end.

(** The two limiter calls of one iteration of the demonstration loops
    (task02.py, 145-147 and 164-166): [record_message] and then, whatever
    it returned, [time_until_next_allowed] for the same user. The printing
    and the sleep of the iteration do not touch the limiter. *)
Definition record_then_query (clock : nat -> Q) (user_id : string)
  : M (bool * Q) :=
  result <- record_message clock user_id ;;
  wait_time <- time_until_next_allowed clock user_id ;;
  ret (result, wait_time).

(** * Properties *)

(** *** Rounding to the nearest float *)

Lemma rne_bounds q : (Qfloor q <= rne q <= Qfloor q + 1)%Z.
Proof.
  unfold rne. destruct (Qcompare _ _); [destruct (Z.even _)| |]; lia.
Qed.

Lemma rne_comp q q' : q == q' -> rne q = rne q'.
Proof.
  intros H. unfold rne. rewrite (Qfloor_comp _ _ H).
  assert (q - inject_Z (Qfloor q') == q' - inject_Z (Qfloor q')) as H'
    by (rewrite H; reflexivity).
  rewrite (Qcompare_comp _ _ H' (1 # 2) (1 # 2) (Qeq_refl _)). reflexivity.
Qed.

Lemma rne_inject_Z n : rne (inject_Z n) = n.
Proof.
  unfold rne. rewrite Qfloor_Z.
  destruct (Qcompare (inject_Z n - inject_Z n) (1 # 2)) eqn:C.
  - apply Qeq_alt in C. lra.
  - reflexivity.
  - apply Qgt_alt in C. lra.
Qed.

Lemma rne_monotone x y : x <= y -> (rne x <= rne y)%Z.
Proof.
  intros Hxy. pose proof (Qfloor_resp_le _ _ Hxy) as Hf.
  pose proof (rne_bounds x) as Hx. pose proof (rne_bounds y) as Hy.
  destruct (Z.eq_dec (Qfloor x) (Qfloor y)) as [He|Hne]; [|lia].
  unfold rne in *. rewrite He in *.
  destruct (Qcompare (y - inject_Z (Qfloor y)) (1 # 2)) eqn:Cy.
  - apply Qeq_alt in Cy.
    destruct (Qcompare (x - inject_Z (Qfloor y)) (1 # 2)) eqn:Cx.
    + lia.
    + destruct (Z.even (Qfloor y)); lia.
    + apply Qgt_alt in Cx. lra.
  - apply Qlt_alt in Cy.
    destruct (Qcompare (x - inject_Z (Qfloor y)) (1 # 2)) eqn:Cx.
    + apply Qeq_alt in Cx. lra.
    + lia.
    + apply Qgt_alt in Cx. lra.
  - destruct (Qcompare (x - inject_Z (Qfloor y)) (1 # 2));
      [destruct (Z.even _)| |]; lia.
Qed.

Lemma rne_nonneg q : 0 <= q -> (0 <= rne q)%Z.
Proof.
  intros H. pose proof (rne_monotone 0 q H) as Hm.
  change 0 with (inject_Z 0) in Hm. rewrite rne_inject_Z in Hm. exact Hm.
Qed.

Lemma pow2_pos e : 0 < pow2 e.
Proof. apply Qpower_0_lt. reflexivity. Qed.

Lemma pow2_plus a b : pow2 (a + b) == pow2 a * pow2 b.
Proof. apply Qpower_plus. discriminate. Qed.

Lemma pow2_le a b : (a <= b)%Z -> pow2 a <= pow2 b.
Proof. intros H. apply Qpower_le_compat_l; [exact H|discriminate]. Qed.

Lemma pow2_inject_Z k : (0 <= k)%Z -> pow2 k == inject_Z (2 ^ k).
Proof. intros H. symmetry. apply (Zpower_Qpower 2 k H). Qed.

Lemma Q_num_den x : x * inject_Z (Zpos (Qden x)) == inject_Z (Qnum x).
Proof. destruct x as [n d]. unfold Qeq, Qmult, inject_Z. simpl. lia. Qed.

Lemma ilog2_spec x :
  0 < x -> pow2 (ilog2 x) <= x /\ x < pow2 (ilog2 x + 1).
Proof.
  intros Hx.
  assert (0 < Qnum x)%Z as Hn.
  { destruct x as [n d]. unfold Qlt in Hx. simpl in *. lia. }
  pose proof (Z.log2_spec _ Hn) as [Ha1 Ha2].
  pose proof (Z.log2_spec (Zpos (Qden x)) (Pos2Z.is_pos _)) as [Hb1 Hb2].
  pose proof (Z.log2_nonneg (Qnum x)) as Ha0.
  pose proof (Z.log2_nonneg (Zpos (Qden x))) as Hb0.
  set (a := Z.log2 (Qnum x)) in *. set (b := Z.log2 (Zpos (Qden x))) in *.
  pose proof (Q_num_den x) as Hnd.
  assert (pow2 a <= inject_Z (Qnum x)) as HA1.
  { rewrite pow2_inject_Z by lia. rewrite <- Zle_Qle. exact Ha1. }
  assert (inject_Z (Qnum x) < pow2 (a + 1)) as HA2.
  { rewrite pow2_inject_Z by lia. rewrite <- Zlt_Qlt.
    change (Z.succ a) with (a + 1)%Z in Ha2. exact Ha2. }
  assert (pow2 b <= inject_Z (Zpos (Qden x))) as HB1.
  { rewrite pow2_inject_Z by lia. rewrite <- Zle_Qle. exact Hb1. }
  assert (inject_Z (Zpos (Qden x)) < pow2 (b + 1)) as HB2.
  { rewrite pow2_inject_Z by lia. rewrite <- Zlt_Qlt.
    change (Z.succ b) with (b + 1)%Z in Hb2. exact Hb2. }
  pose proof (pow2_pos b) as Pb. pose proof (pow2_pos (b + 1)) as Pb1.
  assert (x < pow2 (a - b + 1)) as Hup.
  { pose proof (pow2_plus (a - b + 1) b) as E.
    replace (a - b + 1 + b)%Z with (a + 1)%Z in E by lia.
    pose proof (pow2_pos (a - b + 1)) as P. nra. }
  assert (pow2 (a - b - 1) < x) as Hlo.
  { pose proof (pow2_plus (a - b - 1) (b + 1)) as E.
    replace (a - b - 1 + (b + 1))%Z with a in E by lia.
    pose proof (pow2_pos (a - b - 1)) as P. nra. }
  unfold ilog2. fold a b.
  destruct (Qle_bool (pow2 (a - b)) x) eqn:Hk.
  - apply Qle_bool_iff in Hk. split; assumption.
  - assert (~ pow2 (a - b) <= x) as Hnk.
    { intros H. apply Qle_bool_iff in H. congruence. }
    apply Qnot_le_lt in Hnk.
    replace (a - b - 1 + 1)%Z with (a - b)%Z by lia.
    split; [apply Qlt_le_weak|]; assumption.
Qed.

Lemma ilog2_monotone x y : 0 < x -> x <= y -> (ilog2 x <= ilog2 y)%Z.
Proof.
  intros Hx Hxy.
  destruct (ilog2_spec x Hx) as [Hx1 _].
  destruct (ilog2_spec y) as [_ Hy2]; [lra|].
  destruct (Z_le_gt_dec (ilog2 x) (ilog2 y)) as [H|H]; [exact H|].
  pose proof (pow2_le (ilog2 y + 1) (ilog2 x) ltac:(lia)). lra.
Qed.

Lemma Qdiv_le_pow2 u v e : u <= v -> u / pow2 e <= v / pow2 e.
Proof.
  intros H. unfold Qdiv. apply Qmult_le_compat_r; [exact H|].
  apply Qlt_le_weak, Qinv_lt_0_compat, pow2_pos.
Qed.

Lemma rne_grid_point e k :
  (0 <= k)%Z -> rne (pow2 (e + k) / pow2 e) = (2 ^ k)%Z.
Proof.
  intros Hk. rewrite <- (rne_inject_Z (2 ^ k)). apply rne_comp.
  rewrite <- pow2_inject_Z by exact Hk. rewrite pow2_plus.
  rewrite Qmult_comm. apply Qdiv_mult_l.
  pose proof (pow2_pos e). lra.
Qed.

Lemma grid_point_value e k :
  (0 <= k)%Z -> inject_Z (2 ^ k) * pow2 e == pow2 (e + k).
Proof.
  intros Hk. rewrite <- pow2_inject_Z by exact Hk.
  rewrite pow2_plus. apply Qmult_comm.
Qed.

Lemma round_below_grid_point v e k :
  (0 <= k)%Z -> v <= pow2 (e + k) ->
  inject_Z (rne (v / pow2 e)) * pow2 e <= pow2 (e + k).
Proof.
  intros Hk Hv. rewrite <- (grid_point_value e k Hk).
  apply Qmult_le_compat_r; [|apply Qlt_le_weak, pow2_pos].
  rewrite <- Zle_Qle. rewrite <- (rne_grid_point e k Hk).
  apply rne_monotone, Qdiv_le_pow2, Hv.
Qed.

Lemma round_above_grid_point v e k :
  (0 <= k)%Z -> pow2 (e + k) <= v ->
  pow2 (e + k) <= inject_Z (rne (v / pow2 e)) * pow2 e.
Proof.
  intros Hk Hv. rewrite <- (grid_point_value e k Hk).
  apply Qmult_le_compat_r; [|apply Qlt_le_weak, pow2_pos].
  rewrite <- Zle_Qle. rewrite <- (rne_grid_point e k Hk).
  apply rne_monotone, Qdiv_le_pow2, Hv.
Qed.

Lemma round_positive_nonneg x : 0 <= x -> 0 <= round_positive x.
Proof.
  intros Hx. unfold round_positive. rewrite Qred_correct.
  apply Qmult_le_0_compat; [|apply Qlt_le_weak, pow2_pos].
  change 0 with (inject_Z 0). rewrite <- Zle_Qle. apply rne_nonneg.
  unfold Qdiv. apply Qmult_le_0_compat; [exact Hx|].
  apply Qlt_le_weak, Qinv_lt_0_compat, pow2_pos.
Qed.

Lemma round_positive_monotone x y :
  0 < x -> x <= y -> round_positive x <= round_positive y.
Proof.
  intros Hx Hxy.
  pose proof (ilog2_monotone x y Hx Hxy) as Hlog.
  destruct (ilog2_spec x Hx) as [_ Hx2].
  destruct (ilog2_spec y) as [Hy1 _]; [lra|].
  unfold round_positive. rewrite !Qred_correct.
  set (ex := ulp_exponent x). set (ey := ulp_exponent y).
  assert (ex <= ey)%Z as Hexy by (unfold ex, ey, ulp_exponent; lia).
  assert (ilog2 x + 1 <= ex + 53)%Z as Hex by (unfold ex, ulp_exponent; lia).
  destruct (Z.eq_dec ex ey) as [He|Hne].
  - rewrite He. apply Qmult_le_compat_r; [|apply Qlt_le_weak, pow2_pos].
    rewrite <- Zle_Qle. apply rne_monotone, Qdiv_le_pow2, Hxy.
  - assert (ey = ilog2 y - 52)%Z as Hey by (unfold ex, ey, ulp_exponent in *; lia).
    apply Qle_trans with (pow2 (ey + 52)).
    + replace (ey + 52)%Z with (ex + (ey + 52 - ex))%Z by lia.
      apply round_below_grid_point; [lia|].
      replace (ex + (ey + 52 - ex))%Z with (ey + 52)%Z by lia.
      pose proof (pow2_le (ilog2 x + 1) (ey + 52) ltac:(lia)). lra.
    + apply round_above_grid_point; [lia|].
      replace (ey + 52)%Z with (ilog2 y) by lia. exact Hy1.
Qed.

Lemma b64_monotone x y : x <= y -> b64 x <= b64 y.
Proof.
  intros Hxy. unfold b64.
  destruct (Qcompare_spec x 0) as [Cx|Cx|Cx],
           (Qcompare_spec y 0) as [Cy|Cy|Cy]; try lra.
  - apply round_positive_nonneg. lra.
  - pose proof (round_positive_nonneg (- x) ltac:(lra)). lra.
  - pose proof (round_positive_monotone (- y) (- x) ltac:(lra) ltac:(lra)). lra.
  - pose proof (round_positive_nonneg (- x) ltac:(lra)).
    pose proof (round_positive_nonneg y ltac:(lra)). lra.
  - apply round_positive_monotone; lra.
Qed.

Lemma b64_comp x y : x == y -> b64 x == b64 y.
Proof.
  intros H. apply Qle_antisym; apply b64_monotone; rewrite H; apply Qle_refl.
Qed.

(** A later reading never gives a smaller bound. *)
Lemma fsub_monotone a b w : a <= b -> fsub a w <= fsub b w.
Proof. intros H. apply b64_monotone. lra. Qed.

(** A float at or below the exact difference is at or below the float
    difference. *)
Lemma float_below_fsub t a w : is_float t -> t <= a - w -> t <= fsub a w.
Proof.
  intros Ht H. unfold is_float in Ht. rewrite <- Ht. by apply b64_monotone.
Qed.

(** *** Running the primitives *)

Lemma bind_run {A B} (m : M A) (k : A -> M B) w :
  bind m k w =
  match m w with
  | (Returned a, w') => k a w'
  | (Raised e, w') => (Raised e, w')
  end.
Proof. reflexivity. Qed.

Lemma contains_run k w :
  contains k w =
  (Returned (match request_history (self w) !! k with
             | Some _ => true
             | None => false
             end), w).
Proof. reflexivity. Qed.

Lemma getitem_run k w :
  getitem k w =
  match request_history (self w) !! k with
  | Some l => (Returned l, w)
  | None => (Raised (KeyError k), w)
  end.
Proof. unfold getitem, bind, get_self. by destruct (_ !! _). Qed.

Lemma setitem_run k l w :
  setitem k l w =
  (Returned tt,
   mkWorld (with_history (self w) (<[k := l]> (request_history (self w))))
           (ticks w)).
Proof. reflexivity. Qed.

Lemma delitem_run k w :
  delitem k w =
  match request_history (self w) !! k with
  | Some _ =>
      (Returned tt,
       mkWorld (with_history (self w) (delete k (request_history (self w))))
               (ticks w))
  | None => (Raised (KeyError k), w)
  end.
Proof. unfold delitem, bind, get_self. by destruct (_ !! _). Qed.

Lemma get_self_run w : get_self w = (Returned (self w), w).
Proof. reflexivity. Qed.

Lemma ret_run {A} (a : A) w : ret a w = (Returned a, w).
Proof. reflexivity. Qed.

Lemma perf_counter_run clock w :
  perf_counter clock w =
  (Returned (clock (ticks w)), mkWorld (self w) (S (ticks w))).
Proof. reflexivity. Qed.

Ltac run_simpl :=
  cbn beta iota zeta delta
    [self ticks window_size max_requests request_history with_history
     fst snd];
  try change (negb true) with false;
  try change (negb false) with true;
  cbn beta iota.

Ltac run_step :=
  first
    [ rewrite bind_run
    | rewrite contains_run
    | rewrite getitem_run
    | rewrite setitem_run
    | rewrite delitem_run
    | rewrite get_self_run
    | rewrite perf_counter_run
    | rewrite ret_run
    | match goal with
      | H : _ !! _ = _ |- _ => rewrite H
      end
    | rewrite lookup_insert_eq
    | progress run_simpl ].

Ltac run := repeat run_step.

Lemma with_history_same w :
  mkWorld (with_history (self w) (request_history (self w))) (ticks w) = w.
Proof. by destruct w as [[ws mr h] n]. Qed.

Lemma cleanup_window_spec k now w :
  _cleanup_window k now w =
  (Returned tt, mkWorld (with_history (self w) (cleaned k now (self w))) (ticks w)).
Proof.
  unfold _cleanup_window, cleaned.
  destruct (request_history (self w) !! k) as [l|] eqn:Hk.
  - run.
    destruct (popleft_expired (fsub now (window_size (self w))) l) as [|t l'] eqn:Hp.
    + run. by rewrite delete_insert_eq.
    + by run.
  - run. by rewrite with_history_same.
Qed.

Lemma cleaned_lookup k now s :
  cleaned k now s !! k =
  match active k now s with
  | [] => None
  | t :: l => Some (t :: l)
  end.
Proof.
  unfold cleaned, active, log_of.
  destruct (request_history s !! k) as [l|] eqn:Hk; simpl; [|done].
  destruct (popleft_expired _ l).
  - by rewrite lookup_delete_eq.
  - by rewrite lookup_insert_eq.
Qed.

Lemma cleaned_lookup_ne k k' now s :
  k <> k' -> cleaned k now s !! k' = request_history s !! k'.
Proof.
  intros Hne. unfold cleaned.
  destruct (request_history s !! k) as [l|]; [|done].
  destruct (popleft_expired _ l).
  - by rewrite lookup_delete_ne.
  - by rewrite lookup_insert_ne.
Qed.

Ltac run_methods :=
  repeat first
    [ rewrite cleanup_window_spec
    | rewrite cleaned_lookup
    | match goal with
      | H : active _ _ _ = _ |- _ => rewrite H
      end
    | run_step ].

Lemma can_send_message_spec clock k w :
  can_send_message clock k w =
  (Returned (admissible k (clock (ticks w)) (self w)),
   mkWorld (with_history (self w) (cleaned k (clock (ticks w)) (self w)))
           (S (ticks w))).
Proof.
  unfold can_send_message, admissible.
  run_methods.
  destruct (active k (clock (ticks w)) (self w)) as [|t l] eqn:Ha;
    by run_methods.
Qed.

Lemma record_message_spec clock k w :
  let s := self w in
  let t1 := clock (ticks w) in
  let t2 := clock (S (ticks w)) in
  record_message clock k w =
  if admissible k t1 s
  then (Returned true,
        mkWorld (with_history s (<[k := active k t1 s ++ [t2]]> (cleaned k t1 s)))
                (S (S (ticks w))))
  else (Returned false,
        mkWorld (with_history s (cleaned k t1 s)) (S (ticks w))).
Proof.
  intros s t1 t2. unfold record_message.
  rewrite bind_run, can_send_message_spec. fold s t1.
  destruct (admissible k t1 s); run_methods; [|done].
  fold s t1.
  destruct (active k t1 s) as [|t l] eqn:Ha; run_methods.
  - by rewrite insert_insert_eq.
  - done.
Qed.

Lemma time_until_next_allowed_spec clock k w :
  let s := self w in
  let now := clock (ticks w) in
  let w' := mkWorld (with_history s (cleaned k now s)) (S (ticks w)) in
  time_until_next_allowed clock k w =
  match request_history s !! k with
  | None => (Returned 0, w)
  | Some _ =>
      match active k now s with
      | [] => (Raised (KeyError k), w')
      | oldest :: l =>
          (Returned (if (Z.of_nat (length (oldest :: l)) <? max_requests s)%Z
                     then 0
                     else max0 (fsub (fadd oldest (window_size s)) now)), w')
      end
  end.
Proof.
  intros s now w'. unfold time_until_next_allowed.
  rewrite bind_run, contains_run. fold s.
  destruct (request_history s !! k) as [l0|] eqn:Hk; run_simpl; [|done].
  subst w'.
  destruct (active k now s) as [|t l] eqn:Ha; subst s now; run_methods;
    [done|].
  destruct (_ <? _)%Z; by run_methods.
Qed.

(** *** The state a call leaves *)

Lemma after_spec clock c w :
  after clock c w =
  mkWorld (with_history (self w) (history_after clock c w))
          (reads clock c w + ticks w).
Proof.
  destruct c as [k|k|k]; unfold after, history_after, reads.
  - by rewrite can_send_message_spec.
  - rewrite record_message_spec. by destruct (admissible _ _ _).
  - rewrite time_until_next_allowed_spec. cbv zeta.
    destruct (request_history (self w) !! k) as [l|] eqn:Hk.
    + by destruct (active _ _ _).
    + unfold cleaned. rewrite Hk. simpl. by rewrite with_history_same.
Qed.

Lemma after_window_size clock c w :
  window_size (self (after clock c w)) = window_size (self w).
Proof. by rewrite after_spec. Qed.

Lemma after_max_requests clock c w :
  max_requests (self (after clock c w)) = max_requests (self w).
Proof. by rewrite after_spec. Qed.

Lemma after_ticks clock c w : (ticks w <= ticks (after clock c w))%nat.
Proof. rewrite after_spec. simpl. lia. Qed.

(** *** Eviction on a single log *)

Lemma popleft_expired_suffix bound l :
  exists pre,
    l = pre ++ popleft_expired bound l /\
    Forall (fun t => t <= bound) pre.
Proof.
  induction l as [|t l [pre [Hl Hpre]]]; simpl.
  - by exists [].
  - destruct (Qle_bool t bound) eqn:Ht.
    + exists (t :: pre). split; [by rewrite Hl at 1|].
      constructor; [by apply Qle_bool_iff|done].
    + by exists [].
Qed.

Lemma popleft_expired_head bound l t rest :
  popleft_expired bound l = t :: rest -> ~ t <= bound.
Proof.
  induction l as [|x l IH]; simpl; [done|].
  destruct (Qle_bool x bound) eqn:Hx; [done|].
  intros [= -> ->] Hle. apply Qle_bool_iff in Hle. congruence.
Qed.

Lemma popleft_expired_length bound l :
  (length (popleft_expired bound l) <= length l)%nat.
Proof.
  destruct (popleft_expired_suffix bound l) as [pre [Hl _]].
  rewrite Hl at 2. rewrite length_app. lia.
Qed.

Lemma popleft_expired_same_length bound l :
  length (popleft_expired bound l) = length l ->
  popleft_expired bound l = l.
Proof.
  destruct (popleft_expired_suffix bound l) as [pre [Hl _]].
  intros Hlen. rewrite Hl in Hlen at 2. rewrite length_app in Hlen.
  destruct pre; [done|]. simpl in Hlen. lia.
Qed.

(** On a non-decreasing log, popping from the left is filtering. *)
Lemma popleft_expired_sorted bound l :
  StronglySorted Qle l ->
  popleft_expired bound l = List.filter (fun t => negb (Qle_bool t bound)) l.
Proof.
  induction 1 as [|t l Hs IH Hall]; simpl; [done|].
  destruct (Qle_bool t bound) eqn:Ht; simpl; [done|].
  f_equal. symmetry. apply forallb_filter_id.
  apply forallb_forall. intros x Hx.
  rewrite Forall_forall in Hall. specialize (Hall x).
  destruct (Qle_bool x bound) eqn:Hxb; [|done].
  apply Qle_bool_iff in Hxb.
  assert (t <= bound) as Htb.
  { eapply Qle_trans; [|exact Hxb]. apply Hall. by apply list_elem_of_In. }
  apply Qle_bool_iff in Htb. congruence.
Qed.

Lemma active_suffix k now s :
  exists pre,
    log_of s k = pre ++ active k now s /\
    Forall (fun t => t <= fsub now (window_size s)) pre.
Proof. apply popleft_expired_suffix. Qed.

Lemma StronglySorted_suffix {A} (R : A -> A -> Prop) pre l :
  StronglySorted R (pre ++ l) -> StronglySorted R l.
Proof.
  induction pre as [|x pre IH]; simpl; [done|].
  intros H. apply IH. by inversion H.
Qed.

Lemma StronglySorted_snoc {A} (R : A -> A -> Prop) l x :
  StronglySorted R l -> Forall (fun y => R y x) l ->
  StronglySorted R (l ++ [x]).
Proof.
  induction 1 as [|y l Hs IH Hall]; simpl; intros Hx.
  - repeat constructor.
  - inversion Hx; subst. constructor; [by apply IH|].
    apply Forall_app. split; [done|]. by constructor.
Qed.

(** *** Where the logs of the next state come from *)

Lemma history_after_lookup clock c w k l' :
  history_after clock c w !! k = Some l' ->
  request_history (self w) !! k = Some l'
  \/ (l' = active k (clock (ticks w)) (self w) /\ l' <> [])
  \/ (c = RecordMessage k /\ admissible k (clock (ticks w)) (self w) = true /\
      l' = active k (clock (ticks w)) (self w) ++ [clock (S (ticks w))]).
Proof.
  assert (forall k0, cleaned k0 (clock (ticks w)) (self w) !! k = Some l' ->
            request_history (self w) !! k = Some l'
            \/ (l' = active k (clock (ticks w)) (self w) /\ l' <> [])) as Hc.
  { intros k0. destruct (decide (k0 = k)) as [->|Hne].
    - rewrite cleaned_lookup.
      destruct (active k (clock (ticks w)) (self w)); [done|].
      intros [= <-]. by right.
    - rewrite cleaned_lookup_ne by done. by left. }
  destruct c as [k0|k0|k0]; simpl; intros H.
  - destruct (Hc _ H); auto.
  - destruct (admissible k0 _ _) eqn:Hadm; [|destruct (Hc _ H); auto].
    destruct (decide (k0 = k)) as [->|Hne].
    + rewrite lookup_insert_eq in H. injection H as <-. right. right. done.
    + rewrite lookup_insert_ne in H by done. destruct (Hc _ H); auto.
  - destruct (Hc _ H); auto.
Qed.

(** ** Invariants of reachable states *)

Lemma reachable_config clock ws mr w :
  reachable clock ws mr w ->
  window_size (self w) = default 10 ws /\
  max_requests (self w) = default 1%Z mr.
Proof.
  induction 1 as [s [= <-]|c w Hr IH]; [done|].
  by rewrite after_window_size, after_max_requests.
Qed.

(** No key is mapped to an empty log. *)
Lemma reachable_nonempty clock ws mr w k l :
  reachable clock ws mr w ->
  request_history (self w) !! k = Some l -> l <> [].
Proof.
  intros Hr. revert k l.
  induction Hr as [s [= <-]|c w Hr IH]; intros k l; [done|].
  rewrite after_spec. simpl. intros H.
  apply history_after_lookup in H as [H|[[_ H]|(_ & _ & ->)]]; eauto.
  by destruct (active _ _ _).
Qed.

(** No log is longer than [max_requests], or than one entry when
    [max_requests] is below one. *)
Lemma reachable_capacity clock ws mr w k l :
  reachable clock ws mr w ->
  request_history (self w) !! k = Some l ->
  (Z.of_nat (length l) <= Z.max 1 (max_requests (self w)))%Z.
Proof.
  intros Hr. revert k l.
  induction Hr as [s [= <-]|c w Hr IH]; intros k l; [done|].
  rewrite after_spec. simpl. intros H.
  apply history_after_lookup in H as [H|[[-> _]|(_ & Hadm & ->)]]; eauto.
  - pose proof (popleft_expired_length
      (fsub (clock (ticks w)) (window_size (self w))) (log_of (self w) k)) as Hlen.
    fold (active k (clock (ticks w)) (self w)) in Hlen.
    unfold log_of in Hlen.
    destruct (request_history (self w) !! k) as [l0|] eqn:Hk; simpl in Hlen.
    + specialize (IH _ _ Hk). clear -IH Hlen. lia.
    + clear -Hlen. lia.
  - unfold admissible in Hadm. rewrite length_app. simpl.
    clear -Hadm. destruct (active _ _ _) as [|t l0]; [simpl; lia|].
    apply Z.ltb_lt in Hadm. simpl length in *. lia.
Qed.

(** Under a clock that never goes back, every log is non-decreasing and
    holds only readings already made. *)
Lemma reachable_sorted clock ws mr w k l :
  monotone clock ->
  reachable clock ws mr w ->
  request_history (self w) !! k = Some l ->
  StronglySorted Qle l /\
  Forall (fun t => exists i, (i < ticks w)%nat /\ t = clock i) l.
Proof.
  intros Hmono Hr. revert k l.
  induction Hr as [s [= <-]|c w Hr IH]; intros k l; [done|].
  rewrite after_spec. simpl. intros H.
  assert (forall l0, Forall (fun t => exists i, (i < ticks w)%nat /\ t = clock i) l0 ->
            Forall (fun t => exists i,
              (i < reads clock c w + ticks w)%nat /\ t = clock i) l0) as Hweak.
  { intros l0 Hf. eapply Forall_impl; [exact Hf|].
    intros t (i & Hi & ->). exists i. split; [lia|done]. }
  assert (StronglySorted Qle (active k (clock (ticks w)) (self w)) /\
          Forall (fun t => exists i, (i < ticks w)%nat /\ t = clock i)
                 (active k (clock (ticks w)) (self w))) as [Hsa Hfa].
  { destruct (active_suffix k (clock (ticks w)) (self w)) as [pre [Hl _]].
    unfold log_of in Hl.
    destruct (request_history (self w) !! k) as [l0|] eqn:Hk; simpl in Hl.
    - destruct (IH _ _ Hk) as [Hs Hf]. rewrite Hl in Hs, Hf. split.
      + by eapply StronglySorted_suffix.
      + by apply Forall_app in Hf as [_ Hf].
    - destruct pre; [|done]. simpl in Hl. rewrite <- Hl.
      split; constructor. }
  apply history_after_lookup in H as [H|[[-> _]|(-> & Hadm & ->)]].
  - destruct (IH _ _ H). auto.
  - auto.
  - split.
    + apply StronglySorted_snoc; [done|].
      eapply Forall_impl; [exact Hfa|]. intros t (i & Hi & ->).
      apply Hmono. lia.
    + apply Forall_app. split; [auto|].
      constructor; [|constructor]. exists (S (ticks w)).
      simpl. rewrite Hadm. split; [lia|done].
Qed.

(** *** The scenarios *)

Lemma tick_clock_monotone : monotone tick_clock.
Proof.
  intros i j Hij. unfold tick_clock. rewrite <- Zle_Qle. lia.
Qed.

Lemma reachable_fresh_world clock :
  reachable clock (Some 10) (Some 1%Z) fresh_world.
Proof. by apply reachable_init. Qed.

(** ** time_until_next_allowed *)

Lemma max0_nonneg x : 0 <= max0 x.
Proof.
  unfold max0. destruct (Qle_bool x 0) eqn:Hx; [apply Qle_refl|].
  destruct (Qlt_le_dec 0 x) as [Hlt|Hle]; [by apply Qlt_le_weak|].
  apply Qle_bool_iff in Hle. congruence.
Qed.

(** When the key is present and every timestamp of its log has expired,
    the call raises [KeyError]: the cleanup deletes the key and the next
    line indexes the dictionary with it. *)
Lemma time_until_next_allowed_KeyError clock k w l :
  request_history (self w) !! k = Some l ->
  popleft_expired (fsub (clock (ticks w)) (window_size (self w))) l = [] ->
  fst (time_until_next_allowed clock k w) = Raised (KeyError k).
Proof.
  intros Hk Hp. rewrite time_until_next_allowed_spec. cbv zeta.
  rewrite Hk. unfold active, log_of. rewrite Hk. simpl. by rewrite Hp.
Qed.

(** In every other case the call returns a non-negative wait: zero when
    the key is admissible, and otherwise the time until the oldest retained
    timestamp leaves the window. *)
Lemma time_until_next_allowed_returns clock k w :
  let s := self w in
  let now := clock (ticks w) in
  (request_history s !! k = None \/
   popleft_expired (fsub now (window_size s)) (log_of s k) <> []) ->
  exists d,
    fst (time_until_next_allowed clock k w) = Returned d /\
    0 <= d /\
    d = match popleft_expired (fsub now (window_size s)) (log_of s k) with
        | [] => 0
        | oldest :: rest =>
            if (Z.of_nat (length (oldest :: rest)) <? max_requests s)%Z
            then 0
            else max0 (fsub (fadd oldest (window_size s)) now)
        end.
Proof.
  intros s now H. rewrite time_until_next_allowed_spec. cbv zeta.
  fold s now. unfold active. fold s now.
  destruct (request_history s !! k) as [l|] eqn:Hk.
  - destruct H as [H|H]; [done|].
    destruct (popleft_expired _ _) as [|t l0]; [done|].
    eexists. split; [done|]. split; [|done].
    destruct (_ <? _)%Z; [apply Qle_refl|apply max0_nonneg].
  - unfold log_of. rewrite Hk. simpl.
    exists 0. split; [done|]. split; [apply Qle_refl|done].
Qed.

(** The wait is computed in floats too. With a window of 10 s, after
    [record_message "A"] at 5.000000033 s, at 15.000000033 s the timestamp
    is still in the window, [can_send_message] returns [False], and the
    wait [oldest + window_size - now] rounds to 0. *)
Lemma wait_rounds_to_zero :
  let w := after late_clock (RecordMessage "A") fresh_world in
  fst (can_send_message late_clock "A" w) = Returned false /\
  fst (time_until_next_allowed late_clock "A" w) = Returned 0 /\
  0 < (5629499571367817 # 1125899906842624) + window_size (self w)
      - late_clock (ticks w).
Proof. vm_compute. repeat split. Qed.

(** C1 (the program departs from the claim): on a limiter with a window of
    10 s and one request per window, after [record_message "A"] at 0 s the
    call [time_until_next_allowed "A"] at 10 s raises [KeyError "A"]
    instead of returning 0, although the log is empty after eviction. *)
Theorem time_until_next_allowed_raises_after_expiry :
  let w1 := after boundary_clock (RecordMessage "A") fresh_world in
  request_history (self w1) !! "A" = Some [0] /\
  boundary_clock (ticks w1) = 10 /\
  popleft_expired (10 - window_size (self w1)) [0] = [] /\
  popleft_expired (fsub 10 (window_size (self w1))) [0] = [] /\
  time_until_next_allowed boundary_clock "A" w1 =
    (Raised (KeyError "A"), mkWorld (mkLimiter 10 1 ∅) 3).
Proof. vm_compute. repeat split. Qed.

(** ** record_message *)

Lemma log_of_cleaned k now s :
  log_of (with_history s (cleaned k now s)) k = active k now s.
Proof.
  unfold log_of. simpl. rewrite cleaned_lookup. by destruct (active k now s).
Qed.

(** [record_message] never raises, and it returns what [can_send_message]
    decided. *)
Lemma record_message_result clock k w :
  fst (record_message clock k w) = fst (can_send_message clock k w).
Proof.
  rewrite record_message_spec, can_send_message_spec. cbv zeta.
  by destruct (admissible _ _ _).
Qed.

(** C2, as stated, fails: with readings 0 s and 1 s, [record_message "A"]
    on a new limiter is admitted by the check made at 0 s and appends
    the timestamp 1 s. *)
Lemma record_message_appends_later_reading :
  let r := record_message tick_clock "A" fresh_world in
  fst r = Returned true /\
  fst (can_send_message tick_clock "A" fresh_world) = Returned true /\
  tick_clock (ticks fresh_world) = 0 /\
  request_history (self (snd r)) !! "A" = Some [1] /\
  ~ 1 == tick_clock (ticks fresh_world).
Proof. vm_compute. repeat split. intros H. discriminate H. Qed.

(** C2 (amended): [record_message] takes the admission decision of
    [can_send_message], made against one clock reading, and when admitted
    appends to the key's log as evicted at that reading the next clock
    reading, taken afterwards in the same call; the logs of the other keys
    are as [can_send_message] left them. *)
Theorem record_message_check_then_append clock k w :
  fst (record_message clock k w) = Returned true ->
  let w1 := snd (can_send_message clock k w) in
  fst (can_send_message clock k w) = Returned true /\
  ticks w1 = S (ticks w) /\
  snd (record_message clock k w) =
    mkWorld
      (with_history (self w1)
         (<[k := log_of (self w1) k ++ [clock (ticks w1)]]>
            (request_history (self w1))))
      (S (ticks w1)).
Proof.
  intros H w1. rewrite record_message_result in H. split; [done|].
  subst w1. revert H.
  rewrite record_message_spec, can_send_message_spec. cbv zeta.
  cbn [fst snd ticks self]. intros [= ->]. split; [done|].
  by rewrite log_of_cleaned.
Qed.

Lemma record_message_check_then_append_witness :
  fst (record_message tick_clock "A" fresh_world) = Returned true /\
  snd (record_message tick_clock "A" fresh_world) =
    mkWorld (mkLimiter 10 1 {["A" := [1]]}) 2.
Proof.
  assert (fst (record_message tick_clock "A" fresh_world) = Returned true)
    as H by (vm_compute; reflexivity).
  split; [exact H|].
  destruct (record_message_check_then_append tick_clock "A" fresh_world H)
    as (_ & _ & ->).
  vm_compute. reflexivity.
Defined.

(** ** __init__ *)

(** C3, as stated, fails: a window of 0 s with 0 requests per window is
    accepted. *)
Lemma init_accepts_invalid_configuration :
  0 <= 0 /\ (0 < 1)%Z /\
  __init__ (Some 0) (Some 0%Z) = Returned (mkLimiter 0 0 ∅).
Proof. split; [apply Qle_refl|]. split; [lia|reflexivity]. Qed.

(** C3 (amended): construction never fails: [__init__] stores whatever
    window size and request limit it is given, valid or not, with an empty
    history; nor is an invalid configuration reported at first use, since
    the first [record_message] on the new limiter returns [True]. *)
Theorem init_never_fails clock (ws : option Q) (mr : option Z) k :
  exists s,
    __init__ ws mr = Returned s /\
    window_size s = default 10 ws /\
    max_requests s = default 1%Z mr /\
    request_history s = ∅ /\
    fst (record_message clock k (mkWorld s 0)) = Returned true.
Proof.
  eexists. split; [reflexivity|]. repeat split.
  rewrite record_message_spec. cbv zeta. by unfold admissible, active, log_of.
Qed.

(** ** Denied calls *)

Lemma log_of_lookup s k l :
  request_history s !! k = Some l -> log_of s k = l.
Proof. unfold log_of. by intros ->. Qed.

Lemma reachable_log_capacity clock ws mr w k :
  reachable clock ws mr w ->
  (Z.of_nat (length (log_of (self w) k)) <= Z.max 1 (max_requests (self w)))%Z.
Proof.
  intros Hr. unfold log_of.
  destruct (request_history (self w) !! k) as [l|] eqn:Hk; simpl.
  - by eapply reachable_capacity.
  - clear. lia.
Qed.

(** A denial in a reachable state means that nothing had expired. *)
Lemma denied_nothing_expired clock ws mr w k now :
  reachable clock ws mr w ->
  admissible k now (self w) = false ->
  cleaned k now (self w) = request_history (self w).
Proof.
  intros Hr Hadm.
  pose proof (reachable_log_capacity _ _ _ _ k Hr) as Hcap.
  pose proof (popleft_expired_length
    (fsub now (window_size (self w))) (log_of (self w) k)) as Hlen.
  pose proof (popleft_expired_same_length
    (fsub now (window_size (self w))) (log_of (self w) k)) as Hsame.
  unfold admissible in Hadm. unfold cleaned.
  fold (active k now (self w)) in Hlen, Hsame.
  destruct (active k now (self w)) as [|t l] eqn:Ha; [done|].
  apply Z.ltb_ge in Hadm.
  assert (t :: l = log_of (self w) k) as Heq.
  { apply Hsame. clear -Hadm Hcap Hlen. simpl length in *. lia. }
  unfold log_of in Heq, Ha. unfold active, log_of in Ha.
  destruct (request_history (self w) !! k) as [l0|] eqn:Hk; simpl in *;
    [|done].
  subst l0. unfold active in Ha. rewrite Ha. by apply insert_id.
Qed.

(** C4: in every state the limiter can reach, a [record_message] whose
    admission check fails returns [False] and leaves the limiter as it was;
    only the clock has been read, once. *)
Theorem record_message_denied_unchanged clock ws mr w k :
  reachable clock ws mr w ->
  fst (can_send_message clock k w) = Returned false ->
  record_message clock k w = (Returned false, mkWorld (self w) (S (ticks w))).
Proof.
  intros Hr. rewrite can_send_message_spec, record_message_spec. cbv zeta.
  cbn [fst]. intros [= Hadm]. rewrite Hadm.
  rewrite (denied_nothing_expired _ _ _ _ _ _ Hr Hadm).
  by destruct w as [[? ? ?] ?].
Qed.

Lemma record_message_denied_unchanged_witness :
  let w := after tick_clock (RecordMessage "A") fresh_world in
  record_message tick_clock "A" w = (Returned false, mkWorld (self w) 3).
Proof.
  apply (record_message_denied_unchanged tick_clock (Some 10) (Some 1%Z)).
  - apply reachable_call, reachable_fresh_world.
  - vm_compute. reflexivity.
Defined.

(** ** Eviction *)

Lemma log_of_after_cleanup k now w :
  log_of (self (snd (_cleanup_window k now w))) k =
  popleft_expired (fsub now (window_size (self w))) (log_of (self w) k).
Proof. rewrite cleanup_window_spec. apply log_of_cleaned. Qed.

Lemma reachable_log_sorted clock ws mr w k :
  monotone clock ->
  reachable clock ws mr w ->
  StronglySorted Qle (log_of (self w) k).
Proof.
  intros Hm Hr. unfold log_of.
  destruct (request_history (self w) !! k) as [l|] eqn:Hk; simpl.
  - by destruct (reachable_sorted _ _ _ _ _ _ Hm Hr Hk).
  - constructor.
Qed.

Lemma not_expired_iff t bound :
  negb (Qle_bool t bound) = true <-> ~ t <= bound.
Proof.
  rewrite negb_true_iff, <- Qle_bool_iff. by destruct (Qle_bool t bound).
Qed.

(** C5, as stated, fails: the bound of the eviction is the float
    [now - window_size], which can be above the exact difference. With a
    window of 0.1 s, after [record_message "A"] at 5.000000001 s, eviction
    at 5.100000001 s removes that timestamp although it is above
    [now - window_size]: the float difference is equal to it. *)
Lemma cleanup_window_evicts_above_exact_bound :
  let t := 1407374883834755 # 281474976710656 in
  let now := 2871044763011641 # 562949953421312 in
  let w := after rounding_clock (RecordMessage "A") short_window_world in
  monotone rounding_clock /\
  reachable rounding_clock (Some tenth) (Some 1%Z) w /\
  rounding_clock (ticks w) = now /\
  log_of (self w) "A" = [t] /\
  now - window_size (self w) < t /\
  fsub now (window_size (self w)) == t /\
  log_of (self (snd (_cleanup_window "A" now w))) "A" = [].
Proof.
  split; [|split].
  - intros i j Hij. unfold rounding_clock.
    destruct (i <? 2)%nat eqn:Hi, (j <? 2)%nat eqn:Hj; try discriminate.
    apply Nat.ltb_ge in Hi. apply Nat.ltb_lt in Hj. lia.
  - apply reachable_call. by apply reachable_init.
  - vm_compute. repeat split.
Qed.

(** C5 (amended): in every state reachable under a clock that never goes
    back, eviction at [now] keeps of the key's log exactly the timestamps
    that are not at or below the bound the code computes, the float
    [now - window_size] (the exact difference rounded to the nearest
    float), in their order and with their multiplicity, and leaves the
    other keys alone; a timestamp equal to that bound is not kept, and a
    float timestamp at or below the exact difference is never kept. *)
Theorem cleanup_window_evicts_exactly clock ws mr w k now :
  monotone clock ->
  reachable clock ws mr w ->
  let bound := fsub now (window_size (self w)) in
  let w' := snd (_cleanup_window k now w) in
  log_of (self w') k =
    List.filter (fun t => negb (Qle_bool t bound)) (log_of (self w) k) /\
  (forall t, In t (log_of (self w') k) <->
             In t (log_of (self w) k) /\ bound < t) /\
  (forall t, t == bound -> ~ In t (log_of (self w') k)) /\
  (forall t, is_float t -> t <= now - window_size (self w) ->
             ~ In t (log_of (self w') k)) /\
  (forall k', k <> k' ->
     request_history (self w') !! k' = request_history (self w) !! k').
Proof.
  intros Hm Hr bound w'.
  assert (log_of (self w') k =
          List.filter (fun t => negb (Qle_bool t bound)) (log_of (self w) k))
    as Heq.
  { subst w'. rewrite log_of_after_cleanup.
    apply popleft_expired_sorted. by eapply reachable_log_sorted. }
  assert (forall t, In t (log_of (self w') k) <->
                    In t (log_of (self w) k) /\ bound < t) as Hin.
  { intros t. rewrite Heq, filter_In, not_expired_iff.
    split; intros [H1 H2]; (split; [done|]).
    - by apply Qnot_le_lt.
    - by apply Qlt_not_le. }
  split; [done|]. split; [done|]. split.
  - intros t Ht Hint. apply Hin in Hint as [_ Hlt].
    rewrite Ht in Hlt. by apply Qlt_irrefl in Hlt.
  - split.
    + intros t Hfl Hle Hint. apply Hin in Hint as [_ Hlt].
      pose proof (float_below_fsub t now (window_size (self w)) Hfl Hle).
      subst bound. lra.
    + intros k' Hne. subst w'. rewrite cleanup_window_spec. simpl.
      by apply cleaned_lookup_ne.
Qed.

Lemma cleanup_window_evicts_exactly_witness :
  let w := after tick_clock (RecordMessage "A") fresh_world in
  log_of (self (snd (_cleanup_window "A" 11 w))) "A" =
  List.filter (fun t => negb (Qle_bool t (fsub 11 (window_size (self w)))))
              (log_of (self w) "A").
Proof.
  apply (cleanup_window_evicts_exactly tick_clock (Some 10) (Some 1%Z)).
  - apply tick_clock_monotone.
  - apply reachable_call, reachable_fresh_world.
Defined.

(** ** can_send_message *)

(** After [_cleanup_window] a key is absent or has a non-empty log, in
    any state. *)
Lemma cleanup_window_absent_or_nonempty k now w :
  request_history (self (snd (_cleanup_window k now w))) !! k <> Some [].
Proof.
  rewrite cleanup_window_spec. simpl. rewrite cleaned_lookup.
  by destruct (active k now (self w)).
Qed.

(** C6: [can_send_message] reads the clock once, leaves the state that
    [_cleanup_window] leaves for that reading, and returns [True] exactly
    when the key is then absent or its log is shorter than
    [max_requests]; a present key with [max_requests - 1] timestamps is
    admitted and one with [max_requests] is not. *)
Theorem can_send_message_decision clock k w :
  let now := clock (ticks w) in
  let w1 := snd (_cleanup_window k now w) in
  exists b,
    can_send_message clock k w =
      (Returned b, mkWorld (self w1) (S (ticks w))) /\
    (b = true <->
       request_history (self w1) !! k = None \/
       exists l, request_history (self w1) !! k = Some l /\
                 (Z.of_nat (length l) < max_requests (self w1))%Z) /\
    (forall l, request_history (self w1) !! k = Some l ->
       (Z.of_nat (length l) = max_requests (self w1) - 1)%Z -> b = true) /\
    (forall l, request_history (self w1) !! k = Some l ->
       (Z.of_nat (length l) = max_requests (self w1))%Z -> b = false).
Proof.
  intros now w1. exists (admissible k now (self w)).
  split; [by subst w1; rewrite can_send_message_spec, cleanup_window_spec|].
  subst w1. rewrite cleanup_window_spec. simpl.
  rewrite cleaned_lookup. unfold admissible.
  destruct (active k now (self w)) as [|t l0].
  - split; [by split; auto|]. by split.
  - split; [|split].
    + rewrite Z.ltb_lt. split.
      * intros H. right. eauto.
      * intros [H|(l & [= <-] & H)]; done.
    + intros l [= <-] H. apply Z.ltb_lt. clear -H. lia.
    + intros l [= <-] H. apply Z.ltb_ge. clear -H. lia.
Qed.

(** ** Capacity *)

(** C7: with [max_requests >= 1], in every reachable state, whatever
    the clock readings were, a key's log holds at most [max_requests]
    timestamps, before and after eviction at any time [now]. *)
Theorem capacity_invariant clock ws mr w k now :
  reachable clock ws mr w ->
  (1 <= max_requests (self w))%Z ->
  (Z.of_nat (length (log_of (self (snd (_cleanup_window k now w))) k))
     <= max_requests (self w))%Z /\
  (Z.of_nat (length (log_of (self w) k)) <= max_requests (self w))%Z.
Proof.
  intros Hr Hmax.
  pose proof (reachable_log_capacity _ _ _ _ k Hr) as Hcap.
  rewrite log_of_after_cleanup.
  pose proof (popleft_expired_length
    (fsub now (window_size (self w))) (log_of (self w) k)) as Hlen.
  clear -Hcap Hlen Hmax. lia.
Qed.

Lemma capacity_invariant_witness :
  let w := after tick_clock (RecordMessage "A")
             (after tick_clock (RecordMessage "A") fresh_world) in
  (Z.of_nat (length (log_of (self (snd (_cleanup_window "A" 5 w))) "A"))
     <= max_requests (self w))%Z /\
  (Z.of_nat (length (log_of (self w) "A")) <= max_requests (self w))%Z.
Proof.
  apply (capacity_invariant tick_clock (Some 10) (Some 1%Z)).
  - do 2 apply reachable_call. apply reachable_fresh_world.
  - vm_compute. discriminate.
Defined.

(** ** Key presence *)

Lemma absent_key_calls clock k w :
  request_history (self w) !! k = None ->
  can_send_message clock k w = (Returned true, mkWorld (self w) (S (ticks w))) /\
  time_until_next_allowed clock k w = (Returned 0, w) /\
  record_message clock k w =
    (Returned true,
     mkWorld (with_history (self w)
                (<[k := [clock (S (ticks w))]]> (request_history (self w))))
             (S (S (ticks w)))).
Proof.
  intros Hk.
  rewrite can_send_message_spec, time_until_next_allowed_spec,
    record_message_spec. cbv zeta.
  unfold admissible, active, cleaned, log_of. rewrite Hk. simpl.
  split; [|done]. by destruct w as [[? ? ?] ?].
Qed.

(** C8: in every reachable state a key is in the mapping exactly when its
    log is non-empty, and this still holds after any further call; when
    eviction empties a key's log the key is removed; and on an absent key
    the three calls give what they give on a new limiter:
    [can_send_message] returns [True], [time_until_next_allowed] returns 0
    without reading the clock, and [record_message] returns [True] and
    starts the log with its timestamp. *)
Theorem key_presence_invariant clock ws mr w k :
  reachable clock ws mr w ->
  (is_Some (request_history (self w) !! k) <-> log_of (self w) k <> []) /\
  (forall c k',
     is_Some (request_history (self (after clock c w)) !! k') <->
     log_of (self (after clock c w)) k' <> []) /\
  (forall now,
     popleft_expired (fsub now (window_size (self w))) (log_of (self w) k) = [] ->
     request_history (self (snd (_cleanup_window k now w))) !! k = None) /\
  (request_history (self w) !! k = None ->
   can_send_message clock k w =
     (Returned true, mkWorld (self w) (S (ticks w))) /\
   time_until_next_allowed clock k w = (Returned 0, w) /\
   record_message clock k w =
     (Returned true,
      mkWorld (with_history (self w)
                 (<[k := [clock (S (ticks w))]]> (request_history (self w))))
              (S (S (ticks w))))).
Proof.
  intros Hr.
  assert (forall w0 k0, reachable clock ws mr w0 ->
            is_Some (request_history (self w0) !! k0) <->
            log_of (self w0) k0 <> []) as Hinv.
  { intros w0 k0 Hr0. unfold log_of.
    destruct (request_history (self w0) !! k0) as [l|] eqn:Hk; simpl.
    - split; [|by eauto]. intros _. by eapply reachable_nonempty.
    - split; [by intros [? ?]|done]. }
  split; [by apply Hinv|]. split.
  - intros c k'. apply Hinv. by apply reachable_call.
  - split; [|by apply absent_key_calls].
    intros now Hp. rewrite cleanup_window_spec. simpl.
    rewrite cleaned_lookup. unfold active. by rewrite Hp.
Qed.

Lemma key_presence_invariant_witness :
  let w := after boundary_clock (RecordMessage "A") fresh_world in
  is_Some (request_history (self w) !! "A") <-> log_of (self w) "A" <> [].
Proof.
  intros w.
  apply (key_presence_invariant boundary_clock (Some 10) (Some 1%Z) w "A").
  apply reachable_call, reachable_fresh_world.
Defined.

(** ** Repeated queries *)

Lemma popleft_expired_twice b1 b2 l :
  b1 <= b2 ->
  popleft_expired b2 (popleft_expired b1 l) = popleft_expired b2 l.
Proof.
  intros Hb. induction l as [|t l IH]; simpl; [done|].
  destruct (Qle_bool t b1) eqn:H1.
  - assert (Qle_bool t b2 = true) as ->; [|done].
    apply Qle_bool_iff. apply Qle_bool_iff in H1. by eapply Qle_trans.
  - done.
Qed.

(** Eviction at [t1] does not change what eviction at a later [t2]
    leaves, nor the decision taken at [t2]. *)
Lemma cleaned_twice k t1 t2 s :
  t1 <= t2 ->
  active k t2 (with_history s (cleaned k t1 s)) = active k t2 s /\
  admissible k t2 (with_history s (cleaned k t1 s)) = admissible k t2 s /\
  cleaned k t2 (with_history s (cleaned k t1 s)) = cleaned k t2 s.
Proof.
  intros Ht.
  assert (active k t2 (with_history s (cleaned k t1 s)) = active k t2 s)
    as Ha.
  { unfold active at 1. rewrite log_of_cleaned. unfold active. simpl.
    apply popleft_expired_twice. by apply fsub_monotone. }
  split; [done|]. split.
  - unfold admissible. by rewrite Ha.
  - apply map_eq. intros k'. destruct (decide (k = k')) as [<-|Hne].
    + by rewrite !cleaned_lookup, Ha.
    + rewrite cleaned_lookup_ne by done. simpl.
      by rewrite !cleaned_lookup_ne by done.
Qed.

(** [can_send_message] called again at a reading that is not earlier gives
    what a single call at that reading gives, result and state. *)
Lemma can_send_message_repeat clock k w :
  clock (ticks w) <= clock (S (ticks w)) ->
  can_send_message clock k (snd (can_send_message clock k w)) =
  (fst (can_send_message clock k (mkWorld (self w) (S (ticks w)))),
   mkWorld (self (snd (can_send_message clock k
                         (mkWorld (self w) (S (ticks w))))))
           (S (S (ticks w)))).
Proof.
  intros Ht. rewrite !can_send_message_spec. simpl.
  destruct (cleaned_twice k _ _ (self w) Ht) as (_ & -> & ->). done.
Qed.

(** [time_until_next_allowed] called again at the same reading gives the
    same wait and leaves the same limiter, provided that the first call found
    a timestamp still in the window. *)
Lemma time_until_next_allowed_repeat clock k w :
  clock (S (ticks w)) = clock (ticks w) ->
  popleft_expired (fsub (clock (ticks w)) (window_size (self w)))
                  (log_of (self w) k) <> [] ->
  let r1 := time_until_next_allowed clock k w in
  fst (time_until_next_allowed clock k (snd r1)) = fst r1 /\
  self (snd (time_until_next_allowed clock k (snd r1))) = self (snd r1).
Proof.
  intros Hclock Hne r1. subst r1.
  rewrite (time_until_next_allowed_spec clock k w). cbv zeta.
  fold (active k (clock (ticks w)) (self w)) in Hne.
  destruct (request_history (self w) !! k) as [l0|] eqn:Hk.
  - destruct (active k (clock (ticks w)) (self w)) as [|t l] eqn:Ha; [done|].
    cbn [fst snd]. rewrite time_until_next_allowed_spec. cbv zeta.
    cbn [self ticks]. rewrite Hclock.
    destruct (cleaned_twice k (clock (ticks w)) (clock (ticks w)) (self w))
      as (Ha' & _ & Hc'); [apply Qle_refl|].
    rewrite Ha', Hc', Ha. simpl. rewrite cleaned_lookup, Ha. done.
  - unfold active, log_of in Hne. by rewrite Hk in Hne.
Qed.

(** C9 (the program departs from the claim): on a limiter with a window of
    10 s and one request per window, after [record_message "A"] at 0 s,
    two calls of [time_until_next_allowed "A"] at the same instant 10 s
    differ: the first raises [KeyError "A"], the second returns 0. *)
Theorem time_until_next_allowed_repeat_differs :
  let w1 := after boundary_clock (RecordMessage "A") fresh_world in
  let r1 := time_until_next_allowed boundary_clock "A" w1 in
  let r2 := time_until_next_allowed boundary_clock "A" (snd r1) in
  boundary_clock (ticks w1) = 10 /\
  boundary_clock (ticks (snd r1)) = 10 /\
  fst r1 = Raised (KeyError "A") /\
  fst r2 = Returned 0.
Proof. vm_compute. repeat split. Qed.

(** ** Default arguments *)

(** C10: [__init__] without arguments gives a window of 10 and a limit of
    1 request, the same object as [__init__ 10 1]; the two limiters reach
    the same states under the same calls and clock readings. *)
Theorem init_defaults :
  __init__ None None = Returned (mkLimiter 10 1 ∅) /\
  __init__ None None = __init__ (Some 10) (Some 1%Z) /\
  (forall clock w,
     reachable clock None None w <-> reachable clock (Some 10) (Some 1%Z) w).
Proof.
  split; [done|]. split; [done|].
  intros clock w. split; induction 1 as [s Hs|c w Hr IH].
  - by apply reachable_init.
  - by apply reachable_call.
  - by apply reachable_init.
  - by apply reachable_call.
Qed.

(** * Further properties of the methods *)

(** ** Exceptions *)

(** X1: in any state, [can_send_message] and [record_message] return
    normally: every indexing of the dictionary they do is guarded.
    [record_message] returns the decision of [can_send_message], and the
    window size and the request limit are left as they were. *)
Theorem can_send_and_record_never_raise clock k w :
  exists b,
    fst (can_send_message clock k w) = Returned b /\
    fst (record_message clock k w) = Returned b /\
    window_size (self (snd (record_message clock k w))) = window_size (self w) /\
    max_requests (self (snd (record_message clock k w))) = max_requests (self w).
Proof.
  exists (admissible k (clock (ticks w)) (self w)).
  rewrite record_message_result, can_send_message_spec.
  split; [done|]. split; [done|].
  pose proof (after_window_size clock (RecordMessage k) w) as Hw.
  pose proof (after_max_requests clock (RecordMessage k) w) as Hm.
  by split.
Qed.

Lemma time_until_next_allowed_raises clock k w e :
  fst (time_until_next_allowed clock k w) = Raised e <->
  e = KeyError k /\
  exists l, request_history (self w) !! k = Some l /\
            popleft_expired (fsub (clock (ticks w)) (window_size (self w))) l = [].
Proof.
  rewrite time_until_next_allowed_spec. cbv zeta. unfold active, log_of.
  destruct (request_history (self w) !! k) as [l|] eqn:Hk; simpl.
  - destruct (popleft_expired _ l) as [|t l0] eqn:Hp; simpl.
    + split.
      * intros [= <-]. split; [done|]. by exists l.
      * by intros [-> _].
    + split; [done|]. intros [_ (l' & [= <-] & Hl')]. congruence.
  - split; [done|]. by intros [_ (l' & ? & _)].
Qed.

(** X2: in any state, [time_until_next_allowed] raises exactly when the key
    is in the dictionary and the eviction at the reading, with the float
    bound [reading - window_size] of the code, empties its log;
    the exception is then [KeyError] of that key, never [IndexError]. *)
Theorem time_until_next_allowed_raises_iff clock k w e :
  fst (time_until_next_allowed clock k w) = Raised e <->
  e = KeyError k /\
  exists l, request_history (self w) !! k = Some l /\
            popleft_expired (fsub (clock (ticks w)) (window_size (self w))) l = [].
Proof.
  rewrite time_until_next_allowed_spec. cbv zeta. unfold active, log_of.
  destruct (request_history (self w) !! k) as [l|] eqn:Hk; simpl.
  - destruct (popleft_expired _ l) as [|t l0] eqn:Hp; simpl.
    + split.
      * intros [= <-]. split; [done|]. by exists l.
      * by intros [-> _].
    + split; [done|]. intros [_ (l' & [= <-] & Hl')]. congruence.
  - split; [done|]. by intros [_ (l' & ? & _)].
Qed.

(** ** Eviction on any log *)

(** X3: in any state, sorted or not, [_cleanup_window] removes a prefix of
    the key's log and keeps the rest in order: every removed timestamp is
    at or below the float [now - window_size] that the code computes, the
    oldest kept one is above it, and a log that ends up empty is not left
    in the dictionary. *)
Theorem cleanup_window_removes_expired_prefix k now w :
  let w' := snd (_cleanup_window k now w) in
  exists removed,
    log_of (self w) k = removed ++ log_of (self w') k /\
    Forall (fun t => t <= fsub now (window_size (self w))) removed /\
    (forall t rest, log_of (self w') k = t :: rest ->
                    fsub now (window_size (self w)) < t) /\
    (log_of (self w') k = [] -> request_history (self w') !! k = None).
Proof.
  intros w'. subst w'. rewrite log_of_after_cleanup.
  destruct (popleft_expired_suffix (fsub now (window_size (self w)))
              (log_of (self w) k)) as [pre [Hl Hpre]].
  exists pre. split; [done|]. split; [done|]. split.
  - intros t rest Ht. apply Qnot_le_lt. by eapply popleft_expired_head.
  - intros He. rewrite cleanup_window_spec. simpl. rewrite cleaned_lookup.
    unfold active. by rewrite He.
Qed.

(** ** Keys are independent *)

Lemma after_lookup_other clock c w k' :
  call_key c <> k' ->
  request_history (self (after clock c w)) !! k' =
  request_history (self w) !! k'.
Proof.
  intros Hne. rewrite after_spec. simpl.
  destruct c as [k|k|k]; simpl in *.
  - by apply cleaned_lookup_ne.
  - destruct (admissible _ _ _).
    + rewrite lookup_insert_ne by done. by apply cleaned_lookup_ne.
    + by apply cleaned_lookup_ne.
  - by apply cleaned_lookup_ne.
Qed.

(** X4: in any state, a call about one key leaves the log of every other
    key, present or absent, exactly as it was. *)
Theorem calls_leave_other_keys clock c w k' :
  call_key c <> k' ->
  request_history (self (after clock c w)) !! k' =
  request_history (self w) !! k'.
Proof.
  intros Hne. rewrite after_spec. simpl.
  destruct c as [k|k|k]; simpl in *.
  - by apply cleaned_lookup_ne.
  - destruct (admissible _ _ _).
    + rewrite lookup_insert_ne by done. by apply cleaned_lookup_ne.
    + by apply cleaned_lookup_ne.
  - by apply cleaned_lookup_ne.
Qed.

Lemma calls_leave_other_keys_witness :
  let w := after tick_clock (RecordMessage "A") fresh_world in
  request_history (self (after tick_clock (RecordMessage "B") w)) !! "A" =
  request_history (self w) !! "A".
Proof.
  intros w.
  apply (calls_leave_other_keys tick_clock (RecordMessage "B") w "A").
  simpl. discriminate.
Defined.

(** ** Order of the logs *)

(** X5: under a clock that never goes back, in every reachable state the
    log of every key is non-decreasing, and each of its timestamps is a
    clock reading made before. *)
Theorem logs_are_nondecreasing clock ws mr w k :
  monotone clock ->
  reachable clock ws mr w ->
  StronglySorted Qle (log_of (self w) k) /\
  Forall (fun t => exists i, (i < ticks w)%nat /\ t = clock i)
         (log_of (self w) k).
Proof.
  intros Hm Hr. unfold log_of.
  destruct (request_history (self w) !! k) as [l|] eqn:Hk; simpl.
  - by eapply reachable_sorted.
  - split; constructor.
Qed.

Lemma logs_are_nondecreasing_witness :
  let w := after tick_clock (RecordMessage "A") fresh_world in
  StronglySorted Qle (log_of (self w) "A") /\
  Forall (fun t => exists i, (i < ticks w)%nat /\ t = tick_clock i)
         (log_of (self w) "A").
Proof.
  intros w.
  apply (logs_are_nondecreasing tick_clock (Some 10) (Some 1%Z) w "A").
  - apply tick_clock_monotone.
  - apply reachable_call, reachable_fresh_world.
Defined.

(** ** A query after a record *)

Lemma record_message_check_then_append_aux clock k w :
  fst (record_message clock k w) = Returned true ->
  let w' := snd (record_message clock k w) in
  ticks w' = S (S (ticks w)) /\
  window_size (self w') = window_size (self w) /\
  log_of (self w') k =
    active k (clock (ticks w)) (self w) ++ [clock (S (ticks w))].
Proof.
  rewrite record_message_spec. cbv zeta.
  destruct (admissible _ _ _); [|done]. intros _. cbn [snd self ticks].
  split; [done|]. split; [done|]. unfold log_of. simpl.
  by rewrite lookup_insert_eq.
Qed.

(** X8: in any state, when [record_message] returned [True] and the
    timestamp it appended is still in the window at the next clock
    reading, that is, above the float [reading - window_size] that the
    code computes, [time_until_next_allowed] on the same key returns
    normally, with a non-negative wait. *)
Theorem query_after_record_returns clock k w :
  fst (record_message clock k w) = Returned true ->
  fsub (clock (S (S (ticks w)))) (window_size (self w))
    < clock (S (ticks w)) ->
  exists d,
    fst (time_until_next_allowed clock k (snd (record_message clock k w)))
      = Returned d /\
    0 <= d.
Proof.
  intros Hrec Hgap.
  destruct (record_message_check_then_append_aux clock k w Hrec)
    as (Hticks & Hws & Hlog).
  destruct (time_until_next_allowed_returns clock k
              (snd (record_message clock k w))) as (d & Hd & Hnn & _).
  - right. rewrite Hticks, Hws, Hlog.
    destruct (popleft_expired_suffix
      (fsub (clock (S (S (ticks w)))) (window_size (self w)))
      (active k (clock (ticks w)) (self w) ++ [clock (S (ticks w))]))
      as [pre [Hl Hpre]].
    intros He. rewrite He, app_nil_r in Hl. rewrite <- Hl in Hpre.
    apply Forall_app in Hpre as [_ Hpre]. inversion Hpre; subst. lra.
  - by exists d.
Qed.

Lemma query_after_record_returns_witness :
  exists d,
    fst (time_until_next_allowed tick_clock "A"
           (snd (record_message tick_clock "A" fresh_world))) = Returned d /\
    0 <= d.
Proof.
  apply (query_after_record_returns tick_clock "A" fresh_world).
  - vm_compute. reflexivity.
  - vm_compute. reflexivity.
Defined.

(** ** A request limit below one *)

Lemma admissible_nonpositive_limit k now s :
  (max_requests s <= 0)%Z ->
  admissible k now s = admissible k now (with_max_requests s 1).
Proof.
  intros Hm. unfold admissible, active, log_of. simpl.
  destruct (popleft_expired _ _) as [|t l]; [done|].
  simpl length. simpl max_requests.
  transitivity false; [|symmetry]; apply Z.ltb_ge; clear -Hm; lia.
Qed.

(** X9: a limiter whose [max_requests] is zero or negative does not refuse
    everything: in any state, [can_send_message] and [record_message]
    return what they return with [max_requests = 1], and
    [record_message] leaves the same dictionary. *)
Theorem nonpositive_limit_acts_as_one clock k w :
  (max_requests (self w) <= 0)%Z ->
  let w1 := mkWorld (with_max_requests (self w) 1) (ticks w) in
  fst (can_send_message clock k w) = fst (can_send_message clock k w1) /\
  fst (record_message clock k w) = fst (record_message clock k w1) /\
  request_history (self (snd (record_message clock k w))) =
  request_history (self (snd (record_message clock k w1))).
Proof.
  intros Hm w1. subst w1.
  rewrite !record_message_result, !can_send_message_spec,
    !record_message_spec. cbv zeta. cbn [fst self ticks].
  rewrite <- (admissible_nonpositive_limit k _ (self w) Hm).
  split; [done|]. split; [done|].
  by destruct (admissible _ _ _).
Qed.

Lemma nonpositive_limit_acts_as_one_witness :
  let w := mkWorld (mkLimiter 10 0 {["A" := [0]]}) 0 in
  fst (can_send_message tick_clock "A" w) =
  fst (can_send_message tick_clock "A"
         (mkWorld (with_max_requests (self w) 1) (ticks w))).
Proof.
  intros w. apply (nonpositive_limit_acts_as_one tick_clock "A" w).
  vm_compute. discriminate.
Defined.

(** ** Idle keys *)

Lemma popleft_expired_all bound l :
  Forall (fun t => t <= bound) l -> popleft_expired bound l = [].
Proof.
  induction 1 as [|t l Ht Hl IH]; simpl; [done|].
  apply Qle_bool_iff in Ht. by rewrite Ht.
Qed.

Lemma StronglySorted_le_last l t :
  StronglySorted Qle l -> last l = Some t -> Forall (fun x => x <= t) l.
Proof.
  induction 1 as [|x l Hs IH Hall]; [done|].
  destruct l as [|y l'].
  - intros [= ->]. constructor; [apply Qle_refl|constructor].
  - intros Hlast. change (last (y :: l') = Some t) in Hlast.
    constructor; [|by apply IH].
    specialize (IH Hlast). rewrite Forall_forall in Hall.
    eapply Qle_trans; [apply (Hall y); by left|].
    by inversion IH.
Qed.

(** X10: under a clock that never goes back, once a full window has
    passed since the newest timestamp of a key, a float as every reading
    of the clock is, the next [can_send_message] on it removes the key
    from the dictionary and returns [True]. *)
Theorem idle_key_is_forgotten clock ws mr w k newest :
  monotone clock ->
  reachable clock ws mr w ->
  last (log_of (self w) k) = Some newest ->
  is_float newest ->
  newest + window_size (self w) <= clock (ticks w) ->
  fst (can_send_message clock k w) = Returned true /\
  request_history (self (snd (can_send_message clock k w))) !! k = None.
Proof.
  intros Hm Hr Hlast Hfl Hidle.
  assert (active k (clock (ticks w)) (self w) = []) as Ha.
  { apply popleft_expired_all.
    pose proof (reachable_log_sorted _ _ _ _ k Hm Hr) as Hs.
    eapply Forall_impl; [by apply StronglySorted_le_last|].
    simpl. intros x Hx. eapply Qle_trans; [exact Hx|].
    apply float_below_fsub; [done|lra]. }
  rewrite can_send_message_spec. cbn [fst snd self request_history with_history].
  unfold admissible. rewrite cleaned_lookup, Ha. done.
Qed.

Lemma idle_key_is_forgotten_witness :
  let w := after boundary_clock (RecordMessage "A") fresh_world in
  fst (can_send_message boundary_clock "A" w) = Returned true /\
  request_history (self (snd (can_send_message boundary_clock "A" w))) !! "A"
    = None.
Proof.
  intros w.
  apply (idle_key_is_forgotten boundary_clock (Some 10) (Some 1%Z) w "A" 0).
  - intros i j Hij. unfold boundary_clock.
    destruct (i <? 2)%nat eqn:Hi, (j <? 2)%nat eqn:Hj; try discriminate.
    apply Nat.ltb_ge in Hi. apply Nat.ltb_lt in Hj. lia.
  - apply reachable_call, reachable_fresh_world.
  - vm_compute. reflexivity.
  - vm_compute. reflexivity.
  - vm_compute. discriminate.
Defined.

(** ** The limit over a whole run *)

Lemma appended_spec clock c w k :
  appended clock c w k =
  match c with
  | RecordMessage k' =>
      if decide (k' = k) then
        if admissible k' (clock (ticks w)) (self w)
        then [clock (S (ticks w))] else []
      else []
  | _ => []
  end.
Proof.
  destruct c as [k'|k'|k']; simpl; [done| |done].
  destruct (decide (k' = k)) as [->|Hne]; [|done].
  rewrite record_message_spec. cbv zeta.
  destruct (admissible _ _ _); [|done].
  unfold log_of. simpl. rewrite lookup_insert_eq. simpl.
  by rewrite last_snoc.
Qed.

Lemma appended_other clock c w k :
  call_key c <> k -> appended clock c w k = [].
Proof.
  intros Hne. rewrite appended_spec. destruct c as [k'|k'|k']; [done| |done].
  simpl in Hne. by destruct (decide (k' = k)).
Qed.

(** The log of the key of a call, after the call: what survives the
    eviction at the first reading, then what the call appends. *)
Lemma log_of_after_same clock c w :
  log_of (self (after clock c w)) (call_key c) =
  active (call_key c) (clock (ticks w)) (self w) ++
  appended clock c w (call_key c).
Proof.
  rewrite after_spec, appended_spec.
  destruct c as [k|k|k]; cbn [call_key self history_after].
  - by rewrite log_of_cleaned, app_nil_r.
  - destruct (decide (k = k)) as [_|]; [|done].
    destruct (admissible _ _ _).
    + unfold log_of. simpl. by rewrite lookup_insert_eq.
    + by rewrite log_of_cleaned, app_nil_r.
  - by rewrite log_of_cleaned, app_nil_r.
Qed.

Lemma log_of_after_other clock c w k :
  call_key c <> k ->
  log_of (self (after clock c w)) k = log_of (self w) k.
Proof. intros Hne. unfold log_of. by rewrite after_lookup_other. Qed.

(** A call whose key has a non-empty log reads the clock. *)
Lemma reads_when_logged clock c w :
  log_of (self w) (call_key c) <> [] -> (1 <= reads clock c w)%nat.
Proof.
  destruct c as [k|k|k]; simpl; intros Hl.
  - done.
  - destruct (admissible _ _ _); lia.
  - unfold log_of in Hl. destruct (request_history (self w) !! k); [done|].
    by simpl in Hl.
Qed.

Lemma traced_reachable clock ws mr w adm :
  traced clock ws mr w adm -> reachable clock ws mr w.
Proof.
  induction 1 as [s Hs|c w adm Ht IH].
  - by apply reachable_init.
  - by apply reachable_call.
Qed.

(** All the timestamps ever appended for a key are those evicted so far,
    each of them expired at a reading already made, followed by the log. *)
Lemma traced_evicted_then_log clock ws mr w adm k :
  traced clock ws mr w adm ->
  exists evicted,
    adm k = evicted ++ log_of (self w) k /\
    Forall (fun t => exists i, (i < ticks w)%nat /\
                               t <= fsub (clock i) (window_size (self w))) evicted.
Proof.
  induction 1 as [s [= <-]|c w adm Ht (evicted & Hadm & Hev)].
  - exists []. split; [done|constructor].
  - assert (Forall (fun t => exists i,
              (i < ticks (after clock c w))%nat /\
              t <= fsub (clock i) (window_size (self (after clock c w)))) evicted)
      as Hev'.
    { eapply Forall_impl; [exact Hev|]. simpl. intros t (i & Hi & Hle).
      exists i. rewrite after_window_size.
      pose proof (after_ticks clock c w). split; [lia|done]. }
    destruct (decide (call_key c = k)) as [<-|Hne].
    + destruct (active_suffix (call_key c) (clock (ticks w)) (self w))
        as [pre [Hl Hpre]].
      exists (evicted ++ pre). split.
      * rewrite log_of_after_same, Hadm, Hl at 1.
        by rewrite <- !app_assoc.
      * apply Forall_app. split; [done|].
        destruct pre as [|p pre']; [constructor|].
        assert (log_of (self w) (call_key c) <> []) as Hlog
          by (rewrite Hl; done).
        pose proof (reads_when_logged clock c w Hlog) as Hreads.
        eapply Forall_impl; [exact Hpre|]. simpl. intros t Hle.
        exists (ticks w). rewrite after_window_size, after_spec. simpl.
        split; [lia|done].
    + exists evicted. split; [|done].
      by rewrite log_of_after_other, appended_other, app_nil_r.
Qed.

Lemma count_in_window_app ws x l1 l2 :
  count_in_window ws x (l1 ++ l2) =
  (count_in_window ws x l1 + count_in_window ws x l2)%nat.
Proof. unfold count_in_window. by rewrite List.filter_app, length_app. Qed.

Lemma count_in_window_le_length ws x l :
  (count_in_window ws x l <= length l)%nat.
Proof.
  unfold count_in_window. induction l as [|t l IH]; simpl; [done|].
  destruct (in_window ws x t); simpl; lia.
Qed.

Lemma count_in_window_expired ws x l :
  Forall (fun t => t <= fsub x ws) l -> count_in_window ws x l = 0%nat.
Proof.
  unfold count_in_window. induction 1 as [|t l Ht Hl IH]; simpl; [done|].
  unfold in_window at 1. apply Qle_bool_iff in Ht. by rewrite Ht.
Qed.

(** X11: the limit holds over the whole run, with the window measured as
    the code measures it. Under a clock that never goes back and with
    [max_requests >= 1], among all the timestamps that [record_message]
    ever appended for a key, those that are at most [x] and above the
    float [x - window_size] are at most [max_requests], for every [x]. *)
Theorem rate_limit_enforced clock ws mr w adm k x :
  monotone clock ->
  traced clock ws mr w adm ->
  (1 <= max_requests (self w))%Z ->
  (Z.of_nat (count_in_window (window_size (self w)) x (adm k))
     <= max_requests (self w))%Z.
Proof.
  intros Hm Ht. revert k x.
  induction Ht as [s [= <-]|c w adm Ht IH]; intros k x Hmax.
  - unfold count_in_window. simpl in *. clear -Hmax. lia.
  - rewrite after_window_size, after_max_requests in *.
    rewrite count_in_window_app.
    specialize (IH k x Hmax).
    rewrite appended_spec.
    destruct c as [k'|k'|k'];
      try (unfold count_in_window at 2; simpl; clear -IH; lia).
    destruct (decide (k' = k)) as [->|Hne];
      [|unfold count_in_window at 2; simpl; clear -IH; lia].
    destruct (admissible k (clock (ticks w)) (self w)) eqn:Hadm;
      [|unfold count_in_window at 2; simpl; clear -IH; lia].
    unfold count_in_window at 2. simpl.
    destruct (in_window (window_size (self w)) x (clock (S (ticks w))))
      eqn:Hin; [|simpl; clear -IH; lia].
    simpl. clear IH.
    apply andb_true_iff in Hin as [Hlo Hhi].
    apply Qle_bool_iff in Hhi.
    assert (clock (ticks w) <= clock (S (ticks w))) as H12
      by (apply Hm; lia).
    destruct (traced_evicted_then_log _ _ _ _ _ k Ht)
      as (evicted & Hk & Hev).
    destruct (active_suffix k (clock (ticks w)) (self w))
      as [pre [Hl Hpre]].
    rewrite Hk, Hl, !count_in_window_app.
    rewrite (count_in_window_expired _ _ evicted).
    2:{ eapply Forall_impl; [exact Hev|]. simpl. intros t (i & Hi & Hle).
        assert (clock i <= clock (ticks w)) by (apply Hm; lia).
        eapply Qle_trans; [exact Hle|]. apply fsub_monotone. lra. }
    rewrite (count_in_window_expired _ _ pre).
    2:{ eapply Forall_impl; [exact Hpre|]. simpl. intros t Hle.
        eapply Qle_trans; [exact Hle|]. apply fsub_monotone. lra. }
    pose proof (count_in_window_le_length (window_size (self w)) x
                  (active k (clock (ticks w)) (self w))) as Hc.
    unfold admissible in Hadm.
    destruct (active k (clock (ticks w)) (self w)) as [|t l].
    + simpl in Hc. clear -Hc Hmax. lia.
    + apply Z.ltb_lt in Hadm. clear -Hc Hadm. lia.
Qed.

Lemma rate_limit_enforced_witness :
  let w := after tick_clock (RecordMessage "A")
             (after tick_clock (RecordMessage "A") fresh_world) in
  let adm := fun k =>
    ((fun _ : string => @nil Q) k ++
       appended tick_clock (RecordMessage "A") fresh_world k) ++
    appended tick_clock (RecordMessage "A")
             (after tick_clock (RecordMessage "A") fresh_world) k in
  (Z.of_nat (count_in_window (window_size (self w)) 5 (adm "A"))
     <= max_requests (self w))%Z.
Proof.
  intros w adm.
  apply (rate_limit_enforced tick_clock (Some 10) (Some 1%Z) w adm "A" 5).
  - apply tick_clock_monotone.
  - subst w adm.
    apply (traced_call tick_clock (Some 10) (Some 1%Z) (RecordMessage "A")).
    apply (traced_call tick_clock (Some 10) (Some 1%Z) (RecordMessage "A")
             fresh_world (fun _ => [])).
    by apply traced_init.
  - vm_compute. discriminate.
Defined.

(** ** A burst of requests *)

Lemma popleft_expired_head_kept bound l :
  (forall t rest, l = t :: rest -> bound < t) ->
  popleft_expired bound l = l.
Proof.
  destruct l as [|t l]; [done|]. intros H. simpl.
  destruct (Qle_bool t bound) eqn:Ht; [|done].
  apply Qle_bool_iff in Ht. specialize (H t l eq_refl). lra.
Qed.

Lemma record_messages_snoc clock k n w :
  record_messages clock k (S n) w =
  (fst (record_messages clock k n w) ++
     [fst (record_message clock k (snd (record_messages clock k n w)))],
   snd (record_message clock k (snd (record_messages clock k n w)))).
Proof.
  revert w. induction n as [|n IH]; intros w; [done|].
  change (record_messages clock k (S (S n)) w)
    with (fst (record_message clock k w)
            :: fst (record_messages clock k (S n)
                      (snd (record_message clock k w))),
          snd (record_messages clock k (S n)
                 (snd (record_message clock k w)))).
  by rewrite IH.
Qed.

(** While the log has room and none of its timestamps expires, every
    [record_message] is accepted and only appends. *)
Lemma record_messages_burst clock k B :
  monotone clock ->
  forall m w,
    (Z.of_nat (length (log_of (self w) k)) + Z.of_nat m
       <= max_requests (self w))%Z ->
    (forall t rest, log_of (self w) k = t :: rest -> B < t) ->
    B < clock (S (ticks w)) ->
    fsub (clock (ticks w + 2 * m)%nat) (window_size (self w)) <= B ->
    let r := record_messages clock k m w in
    fst r = repeat (Returned true) m /\
    ticks (snd r) = (ticks w + 2 * m)%nat /\
    length (log_of (self (snd r)) k)
      = (length (log_of (self w) k) + m)%nat /\
    (forall t rest, log_of (self (snd r)) k = t :: rest -> B < t) /\
    window_size (self (snd r)) = window_size (self w) /\
    max_requests (self (snd r)) = max_requests (self w).
Proof.
  intros Hm m. induction m as [|m IH]; intros w Hroom Hhead Hnext Hlast.
  - simpl. replace (ticks w + 0)%nat with (ticks w) by lia.
    repeat split; done.
  - assert (clock (ticks w) <= clock (ticks w + 2 * S m)%nat) as Hle
      by (apply Hm; lia).
    assert (active k (clock (ticks w)) (self w) = log_of (self w) k) as Ha.
    { apply popleft_expired_head_kept. intros t rest Ht.
      specialize (Hhead t rest Ht).
      pose proof (fsub_monotone _ _ (window_size (self w)) Hle). lra. }
    assert (admissible k (clock (ticks w)) (self w) = true) as Hadm.
    { unfold admissible. rewrite Ha.
      destruct (log_of (self w) k) as [|t l]; [done|].
      apply Z.ltb_lt. clear -Hroom. lia. }
    assert (record_message clock k w =
            (Returned true,
             mkWorld (with_history (self w)
                        (<[k := log_of (self w) k ++ [clock (S (ticks w))]]>
                           (cleaned k (clock (ticks w)) (self w))))
                     (S (S (ticks w))))) as Hrec.
    { rewrite record_message_spec. cbv zeta. by rewrite Hadm, Ha. }
    set (w' := snd (record_message clock k w)).
    assert (log_of (self w') k = log_of (self w) k ++ [clock (S (ticks w))])
      as Hlog'.
    { subst w'. rewrite Hrec. unfold log_of at 1. simpl.
      by rewrite lookup_insert_eq. }
    assert (ticks w' = S (S (ticks w))) as Hticks'
      by (subst w'; by rewrite Hrec).
    assert (window_size (self w') = window_size (self w)) as Hws'
      by (subst w'; by rewrite Hrec).
    assert (max_requests (self w') = max_requests (self w)) as Hmr'
      by (subst w'; by rewrite Hrec).
    destruct (IH w') as (Hres & Ht & Hlen & Hh & Hw & Hx).
    + rewrite Hlog', Hmr', length_app. simpl. clear -Hroom. lia.
    + rewrite Hlog'. intros t rest Heq.
      destruct (log_of (self w) k) as [|t0 l0] eqn:Hl; simpl in Heq.
      * injection Heq as <- _. done.
      * injection Heq as <- _. by eapply Hhead.
    + rewrite Hticks'.
      assert (clock (S (ticks w)) <= clock (S (S (S (ticks w)))))
        by (apply Hm; lia). lra.
    + rewrite Hticks', Hws'.
      replace (S (S (ticks w)) + 2 * m)%nat with (ticks w + 2 * S m)%nat
        by lia. done.
    + change (record_messages clock k (S m) w)
        with (fst (record_message clock k w)
                :: fst (record_messages clock k m w'),
              snd (record_messages clock k m w')).
      cbn [fst snd]. rewrite Hres, Hrec. cbn [fst].
      split; [done|]. split; [rewrite Ht, Hticks'; lia|].
      split; [rewrite Hlen, Hlog', length_app; simpl; lia|].
      split; [done|]. split; congruence.
Qed.

(** X12: a burst. Under a clock that never goes back, for a key not in the
    dictionary and [max_requests = n >= 1], [n + 1] calls of
    [record_message] in a row return [True] [n] times and then [False],
    when at the reading of the last call the first appended timestamp is
    still in the window: above the float [reading - window_size] that the
    code computes. *)
Theorem burst_then_denied clock k w n :
  monotone clock ->
  request_history (self w) !! k = None ->
  max_requests (self w) = Z.of_nat n ->
  (1 <= n)%nat ->
  fsub (clock (ticks w + 2 * n)%nat) (window_size (self w))
    < clock (S (ticks w)) ->
  fst (record_messages clock k (S n) w) =
  repeat (Returned true) n ++ [Returned false].
Proof.
  intros Hm Hk Hmax Hn Hwin.
  assert (log_of (self w) k = []) as Hlog by (unfold log_of; by rewrite Hk).
  destruct (record_messages_burst clock k
              (fsub (clock (ticks w + 2 * n)%nat) (window_size (self w)))
              Hm n w)
    as (Hres & Ht & Hlen & Hh & Hw & Hx).
  - rewrite Hlog, Hmax. simpl. lia.
  - by rewrite Hlog.
  - done.
  - apply Qle_refl.
  - rewrite record_messages_snoc. cbn [fst]. rewrite Hres. f_equal. f_equal.
    rewrite record_message_result, can_send_message_spec. cbn [fst]. f_equal.
    unfold admissible, active. rewrite Ht, Hw.
    rewrite popleft_expired_head_kept by done.
    rewrite Hlog in Hlen. simpl in Hlen.
    destruct (log_of (self (snd (record_messages clock k n w))) k)
      as [|t l] eqn:Hl; [simpl in Hlen; lia|].
    apply Z.ltb_ge. rewrite Hx, Hmax, Hlen. lia.
Qed.

Lemma burst_then_denied_witness :
  fst (record_messages tick_clock "C" 4 (mkWorld (mkLimiter 10 3 ∅) 0)) =
  repeat (Returned true) 3 ++ [Returned false].
Proof.
  apply (burst_then_denied tick_clock "C" (mkWorld (mkLimiter 10 3 ∅) 0) 3).
  - apply tick_clock_monotone.
  - reflexivity.
  - reflexivity.
  - lia.
  - vm_compute. reflexivity.
Defined.

(** ** When a slot opens again *)

(** X13: in a reachable state with [max_requests >= 1], once the oldest
    timestamp of a key, a float as every reading of the clock is, is a
    full window old at the reading of the call, [record_message] on that
    key returns [True], however full the log was. *)
Theorem record_message_after_oldest_expired clock ws mr w k oldest rest :
  reachable clock ws mr w ->
  (1 <= max_requests (self w))%Z ->
  log_of (self w) k = oldest :: rest ->
  is_float oldest ->
  oldest + window_size (self w) <= clock (ticks w) ->
  fst (record_message clock k w) = Returned true.
Proof.
  intros Hr Hmax Hlog Hfl Hold.
  rewrite record_message_result, can_send_message_spec. cbn [fst]. f_equal.
  pose proof (reachable_log_capacity _ _ _ _ k Hr) as Hcap.
  unfold admissible, active. rewrite Hlog in *. simpl popleft_expired.
  assert (Qle_bool oldest (fsub (clock (ticks w)) (window_size (self w))) = true)
    as ->.
  { apply Qle_bool_iff. apply float_below_fsub; [done|lra]. }
  pose proof (popleft_expired_length
    (fsub (clock (ticks w)) (window_size (self w))) rest) as Hlen.
  destruct (popleft_expired _ rest) as [|t l]; [done|].
  apply Z.ltb_lt. simpl length in *. clear -Hcap Hlen Hmax. lia.
Qed.

Lemma record_message_after_oldest_expired_witness :
  fst (record_message boundary_clock "A"
         (after boundary_clock (RecordMessage "A") fresh_world))
    = Returned true.
Proof.
  apply (record_message_after_oldest_expired boundary_clock
           (Some 10) (Some 1%Z) _ "A" 0 []).
  - apply reachable_call, reachable_fresh_world.
  - vm_compute. discriminate.
  - vm_compute. reflexivity.
  - vm_compute. reflexivity.
  - vm_compute. discriminate.
Defined.

(** ** Queries *)

(** X14: queries compose. In any state, [_cleanup_window] at [t1] followed
    by [_cleanup_window] at a time [t2] that is not earlier leaves what
    [_cleanup_window] at [t2] alone leaves; and [can_send_message] called
    twice, the second reading not earlier than the first, returns the
    second time what one call at the second reading returns, and leaves
    the same limiter. *)
Theorem queries_compose clock k w t1 t2 :
  t1 <= t2 ->
  clock (ticks w) <= clock (S (ticks w)) ->
  snd (_cleanup_window k t2 (snd (_cleanup_window k t1 w))) =
    snd (_cleanup_window k t2 w) /\
  (let w1 := snd (can_send_message clock k w) in
   let w2 := mkWorld (self w) (S (ticks w)) in
   fst (can_send_message clock k w1) = fst (can_send_message clock k w2) /\
   self (snd (can_send_message clock k w1)) =
     self (snd (can_send_message clock k w2))).
Proof.
  intros Ht Hc. split.
  - rewrite !cleanup_window_spec. cbn [snd self ticks].
    destruct (cleaned_twice k t1 t2 (self w) Ht) as (_ & _ & ->). done.
  - cbv zeta. by rewrite can_send_message_repeat.
Qed.

Lemma queries_compose_witness :
  let w := after tick_clock (RecordMessage "A") fresh_world in
  snd (_cleanup_window "A" 12 (snd (_cleanup_window "A" 5 w))) =
  snd (_cleanup_window "A" 12 w).
Proof.
  intros w. apply (queries_compose tick_clock "A" w 5 12).
  - vm_compute. discriminate.
  - vm_compute. discriminate.
Defined.

(** X15: queries only remove. In any state, after [can_send_message] or
    [time_until_next_allowed], whether it returned or raised, the log of
    every key is the old log without some of its oldest timestamps: no
    query adds or reorders a timestamp. *)
Theorem queries_only_remove clock k w k' :
  (exists removed,
     log_of (self w) k' =
     removed ++ log_of (self (snd (can_send_message clock k w))) k') /\
  (exists removed,
     log_of (self w) k' =
     removed ++ log_of (self (snd (time_until_next_allowed clock k w))) k').
Proof.
  assert (forall c, call_key c = k -> appended clock c w k = [] ->
            exists removed,
              log_of (self w) k' = removed ++ log_of (self (after clock c w)) k')
    as H.
  { intros c Hc Happ. destruct (decide (k = k')) as [<-|Hne].
    - destruct (active_suffix k (clock (ticks w)) (self w)) as [pre [Hl _]].
      exists pre. rewrite <- Hc in *.
      by rewrite log_of_after_same, Happ, app_nil_r.
    - exists []. rewrite log_of_after_other; [done|congruence]. }
  split.
  - by apply (H (CanSendMessage k)).
  - by apply (H (TimeUntilNextAllowed k)).
Qed.

(** ** When the query raises *)

Lemma popleft_expired_nil_iff bound l :
  popleft_expired bound l = [] <-> Forall (fun t => t <= bound) l.
Proof.
  split; [|apply popleft_expired_all].
  destruct (popleft_expired_suffix bound l) as [pre [Hl Hpre]].
  intros He. rewrite He, app_nil_r in Hl. by rewrite Hl.
Qed.

Lemma sorted_all_le_iff l newest bound :
  StronglySorted Qle l -> last l = Some newest ->
  Forall (fun t => t <= bound) l <-> newest <= bound.
Proof.
  intros Hs Hlast. split.
  - intros Hall. apply last_Some in Hlast as [l' ->].
    apply Forall_app in Hall as [_ Hall]. by inversion Hall.
  - intros Hle. eapply Forall_impl; [by apply StronglySorted_le_last|].
    simpl. intros x Hx. by eapply Qle_trans.
Qed.

Lemma raises_iff_idle clock ws mr w k newest :
  monotone clock ->
  reachable clock ws mr w ->
  last (log_of (self w) k) = Some newest ->
  fst (time_until_next_allowed clock k w) = Raised (KeyError k) <->
  newest <= fsub (clock (ticks w)) (window_size (self w)).
Proof.
  intros Hm Hr Hlast.
  pose proof (reachable_log_sorted _ _ _ _ k Hm Hr) as Hs.
  rewrite time_until_next_allowed_raises.
  assert (exists l, request_history (self w) !! k = Some l /\
                    log_of (self w) k = l) as (l & Hk & Hl).
  { unfold log_of in *. destruct (request_history (self w) !! k) as [l|];
      [by exists l|done]. }
  rewrite Hl in *. split.
  - intros [_ (l' & Hk' & Hp)]. rewrite Hk in Hk'. injection Hk' as <-.
    apply popleft_expired_nil_iff in Hp.
    by apply (sorted_all_le_iff _ _ _ Hs Hlast) in Hp.
  - intros Hidle. split; [done|]. exists l. split; [done|].
    by apply popleft_expired_nil_iff, (sorted_all_le_iff _ _ _ Hs Hlast).
Qed.

(** X16: under a clock that never goes back, in a reachable state where
    the key has a log, [time_until_next_allowed] raises [KeyError] exactly
    when the newest timestamp of the key is at or below the float
    [reading - window_size] that the code computes; this is so, in
    particular, when the newest timestamp is a float and a full window
    has passed since it. *)
Theorem time_until_next_allowed_raises_iff_idle clock ws mr w k newest :
  monotone clock ->
  reachable clock ws mr w ->
  last (log_of (self w) k) = Some newest ->
  (fst (time_until_next_allowed clock k w) = Raised (KeyError k) <->
   newest <= fsub (clock (ticks w)) (window_size (self w))) /\
  (is_float newest ->
   newest + window_size (self w) <= clock (ticks w) ->
   fst (time_until_next_allowed clock k w) = Raised (KeyError k)).
Proof.
  intros Hm Hr Hlast.
  pose proof (reachable_log_sorted _ _ _ _ k Hm Hr) as Hs.
  assert (fst (time_until_next_allowed clock k w) = Raised (KeyError k) <->
          newest <= fsub (clock (ticks w)) (window_size (self w))) as Hiff.
  { rewrite time_until_next_allowed_raises.
    assert (exists l, request_history (self w) !! k = Some l /\
                      log_of (self w) k = l) as (l & Hk & Hl).
    { unfold log_of in *. destruct (request_history (self w) !! k) as [l|];
        [by exists l|done]. }
    rewrite Hl in *. split.
    - intros [_ (l' & Hk' & Hp)]. rewrite Hk in Hk'. injection Hk' as <-.
      apply popleft_expired_nil_iff in Hp.
      by apply (sorted_all_le_iff _ _ _ Hs Hlast) in Hp.
    - intros Hidle. split; [done|]. exists l. split; [done|].
      by apply popleft_expired_nil_iff, (sorted_all_le_iff _ _ _ Hs Hlast). }
  split; [done|]. intros Hfl Hidle. apply Hiff.
  apply float_below_fsub; [done|lra].
Qed.

Lemma time_until_next_allowed_raises_iff_idle_witness :
  let w := after boundary_clock (RecordMessage "A") fresh_world in
  (fst (time_until_next_allowed boundary_clock "A" w) = Raised (KeyError "A")
   <-> 0 <= fsub (boundary_clock (ticks w)) (window_size (self w))) /\
  (is_float 0 ->
   0 + window_size (self w) <= boundary_clock (ticks w) ->
   fst (time_until_next_allowed boundary_clock "A" w)
     = Raised (KeyError "A")).
Proof.
  intros w.
  apply (time_until_next_allowed_raises_iff_idle boundary_clock
           (Some 10) (Some 1%Z) w "A" 0).
  - intros i j Hij. unfold boundary_clock.
    destruct (i <? 2)%nat eqn:Hi, (j <? 2)%nat eqn:Hj; try discriminate.
    apply Nat.ltb_ge in Hi. apply Nat.ltb_lt in Hj. lia.
  - apply reachable_call, reachable_fresh_world.
  - vm_compute. reflexivity.
Defined.

(** ** An iteration of the demonstration loop *)

Lemma record_then_query_spec clock k w :
  record_then_query clock k w =
  match record_message clock k w with
  | (Returned result, w1) =>
      match time_until_next_allowed clock k w1 with
      | (Returned wait_time, w2) => (Returned (result, wait_time), w2)
      | (Raised e, w2) => (Raised e, w2)
      end
  | (Raised e, w1) => (Raised e, w1)
  end.
Proof.
  unfold record_then_query. rewrite bind_run.
  destruct (record_message clock k w) as [[result|e] w1]; [|done].
  rewrite bind_run.
  by destruct (time_until_next_allowed clock k w1) as [[wait_time|e] w2].
Qed.

(** X17: under a clock that never goes back, in a reachable state, an
    iteration of the demonstration loop, [record_message] followed by
    [time_until_next_allowed] for the same user, raises exactly when the
    newest timestamp the user has after the first call is at or below the
    float [reading - window_size] that the second call computes; the
    exception is [KeyError] of that user. Otherwise it returns the result
    of [record_message] and a non-negative wait. *)
Theorem record_then_query_raises_iff clock ws mr w k :
  monotone clock ->
  reachable clock ws mr w ->
  let w1 := snd (record_message clock k w) in
  exists newest,
    last (log_of (self w1) k) = Some newest /\
    (forall e, fst (record_then_query clock k w) = Raised e <->
               e = KeyError k /\
               newest <= fsub (clock (ticks w1)) (window_size (self w1))) /\
    (~ newest <= fsub (clock (ticks w1)) (window_size (self w1)) ->
     exists result wait_time,
       fst (record_message clock k w) = Returned result /\
       fst (record_then_query clock k w) = Returned (result, wait_time) /\
       0 <= wait_time).
Proof.
  intros Hm Hr w1.
  assert (reachable clock ws mr w1) as Hr1
    by (apply (reachable_call clock ws mr (RecordMessage k)); done).
  assert (record_message clock k w =
          (Returned (admissible k (clock (ticks w)) (self w)), w1)) as Hrec.
  { subst w1. rewrite record_message_spec. cbv zeta.
    by destruct (admissible _ _ _). }
  assert (log_of (self w1) k <> []) as Hne.
  { change w1 with (after clock (RecordMessage k) w).
    change k with (call_key (RecordMessage k)) at 2.
    rewrite log_of_after_same, appended_spec. simpl.
    destruct (decide (k = k)); [|done]. unfold admissible.
    by destruct (active k (clock (ticks w)) (self w)). }
  destruct (last (log_of (self w1) k)) as [newest|] eqn:Hlast.
  2:{ apply last_None in Hlast. done. }
  exists newest. split; [done|].
  pose proof (raises_iff_idle clock ws mr w1 k newest Hm Hr1 Hlast) as Hiff.
  rewrite record_then_query_spec, Hrec.
  split.
  - intros e. split.
    + destruct (time_until_next_allowed clock k w1) as [[d|e'] w2] eqn:Hq;
        [done|].
      simpl. intros [= ->].
      assert (fst (time_until_next_allowed clock k w1) = Raised e) as Hq'
        by (by rewrite Hq).
      apply time_until_next_allowed_raises in Hq' as Hq''.
      destruct Hq'' as [-> _]. split; [done|]. by apply Hiff.
    + intros [-> Hidle]. apply Hiff in Hidle.
      destruct (time_until_next_allowed clock k w1) as [[d|e'] w2];
        simpl in *; [done|congruence].
  - intros Hnot.
    destruct (time_until_next_allowed_returns clock k w1)
      as (d & Hd & Hnn & _).
    + right. intros He. apply Hnot, Hiff.
      apply time_until_next_allowed_raises. split; [done|].
      unfold log_of in He, Hne.
      destruct (request_history (self w1) !! k) as [l|]; [|done].
      by exists l.
    + exists (admissible k (clock (ticks w)) (self w)), d.
      split; [done|]. split; [|done].
      destruct (time_until_next_allowed clock k w1) as [[d'|e'] w2];
        simpl in *; congruence.
Qed.

Lemma record_then_query_raises_iff_witness :
  let w1 := snd (record_message tick_clock "A" fresh_world) in
  exists newest,
    last (log_of (self w1) "A") = Some newest /\
    (forall e, fst (record_then_query tick_clock "A" fresh_world) = Raised e
               <->
               e = KeyError "A" /\
               newest <= fsub (tick_clock (ticks w1)) (window_size (self w1)))
    /\
    (~ newest <= fsub (tick_clock (ticks w1)) (window_size (self w1)) ->
     exists result wait_time,
       fst (record_message tick_clock "A" fresh_world) = Returned result /\
       fst (record_then_query tick_clock "A" fresh_world)
         = Returned (result, wait_time) /\
       0 <= wait_time).
Proof.
  apply (record_then_query_raises_iff tick_clock (Some 10) (Some 1%Z)
           fresh_world "A").
  - apply tick_clock_monotone.
  - apply reachable_fresh_world.
Defined.
